(** * polynomial_multiplication: naive Cauchy products over int buffers

    A shallow embedding of the C kernels [Naive_Product],
    [Naive_AddTo_Sum_Product] and [Scaled_AddTo].

    - [int] is a 32-bit two's complement integer whose arithmetic wraps;
      [size_t] is a 64-bit unsigned integer whose arithmetic wraps.  Both are
      carried as [Z] with the wrap-around written out.
    - A coefficient array is a [list Z].  The arrays behind the [const int *]
      arguments are read-only values; the array behind [P_coeffs] is the
      mutable part of the machine state.  An input array given as a list is
      therefore an array that does not overlap the output buffer; the call
      of [Scaled_AddTo] whose input pointer is the output pointer itself is
      modelled apart, as [Scaled_AddTo_in_place].
    - Every array access is bounds-checked against the list it addresses and
      recorded in the state: an access outside the array is a [Fault] (the C
      program has no defined behaviour there).
    - The [for] loops are unrolled by a fuel counter, since a loop
      [for (n = lo; n <= hi; ++n)] over [size_t] need not terminate.  A
      result is always stated for every fuel above an explicit bound.
    - The length of an array is given twice, as in the C code: by the list
      and by the [size_t] argument.  The theorems relate the two, and ask
      that the length of the output buffer be a [size_t], as the length of
      every C array is. *)

From stdpp Require Import base numbers list.

Local Open Scope Z_scope.
Local Coercion Z.of_nat : nat >-> Z.

(** ** Machine integers *)

Definition INT_BITS : Z := 32.
Definition SIZE_BITS : Z := 64.

Definition INT_MIN : Z := - 2 ^ (INT_BITS - 1).
Definition INT_MAX : Z := 2 ^ (INT_BITS - 1) - 1.
Definition SIZE_MAX : Z := 2 ^ SIZE_BITS - 1.

(** Reduction of an exact integer to the representable [int] congruent to it
    modulo [2 ^ INT_BITS]. *)
Definition wrap_int (z : Z) : Z := (z - INT_MIN) mod 2 ^ INT_BITS + INT_MIN.

Definition int_add (a b : Z) : Z := wrap_int (a + b).
Definition int_mul (a b : Z) : Z := wrap_int (a * b).

Definition wrap_size (z : Z) : Z := z mod 2 ^ SIZE_BITS.

Definition size_add (a b : Z) : Z := wrap_size (a + b).
Definition size_sub (a b : Z) : Z := wrap_size (a - b).

(** [(size_t)0] and [(size_t)1]. *)
Definition zero : Z := wrap_size 0.
Definition one : Z := wrap_size 1.

(** ** Machine state, outcomes and the execution monad *)

Inductive buffer : Set :=
  | P_coeffs | A_coeffs | A0_coeffs | A1_coeffs | B_coeffs.

Inductive access : Set :=
  | Read (b : buffer) (i : Z)
  | Write (b : buffer) (i : Z).

(** [mem_P] is the array [P_coeffs] points to; [accesses] lists the array
    accesses performed so far, the latest first. *)
Record state : Set := mkState { mem_P : list Z; accesses : list access }.

Inductive outcome (X : Type) : Type :=
  | Done (x : X) (s : state)
  | Fault
  | OutOfFuel.

Arguments Done {X} x s.
Arguments Fault {X}.
Arguments OutOfFuel {X}.

Definition M (X : Type) : Type := state -> outcome X.

Definition ret {X} (x : X) : M X := fun s => Done x s.

Definition bind {X Y} (c : M X) (k : X -> M Y) : M Y :=
  fun s =>
    match c s with
    | Done x s' => k x s'
    | Fault => Fault
    | OutOfFuel => OutOfFuel
    end.

Notation "'let*' x := c 'in' k" := (bind c (fun x => k))
  (at level 10, x name, c at level 100, k at level 200).
Notation "c ;; k" := (bind c (fun _ => k))
  (at level 100, k at level 200, right associativity).

Definition record (e : access) (s : state) : state :=
  mkState (mem_P s) (e :: accesses s).

(** [arr[i]] for a read-only array [arr] passed as the pointer [b]. *)
Definition load (b : buffer) (arr : list Z) (i : Z) : M Z :=
  fun s =>
    match arr !! Z.to_nat i with
    | Some v => Done v (record (Read b i) s)
    | None => Fault
    end.

(** [P_coeffs[i]] as an rvalue. *)
Definition load_P (i : Z) : M Z :=
  fun s =>
    match mem_P s !! Z.to_nat i with
    | Some v => Done v (record (Read P_coeffs i) s)
    | None => Fault
    end.

(** [P_coeffs[i] = v]. *)
Definition store_P (i v : Z) : M unit :=
  fun s =>
    if decide (Z.to_nat i < length (mem_P s))%nat
    then Done tt (mkState (<[Z.to_nat i := v]> (mem_P s))
                          (Write P_coeffs i :: accesses s))
    else Fault.

(** [P_coeffs[i] += v]. *)
Definition addto_P (i v : Z) : M unit :=
  let* p := load_P i in store_P i (int_add p v).

(** [for (n = lo; n <= hi; ++n) body]. *)
Fixpoint for_le (fuel : nat) (n hi : Z) (body : Z -> M unit) : M unit :=
  match fuel with
  | O => fun _ => OutOfFuel
  | S fuel' =>
      if decide (n <= hi)
      then body n ;; for_le fuel' (size_add n one) hi body
      else ret tt
  end.

(** [for (n = lo; n < hi; ++n) body]. *)
Fixpoint for_lt (fuel : nat) (n hi : Z) (body : Z -> M unit) : M unit :=
  match fuel with
  | O => fun _ => OutOfFuel
  | S fuel' =>
      if decide (n < hi)
      then body n ;; for_lt fuel' (size_add n one) hi body
      else ret tt
  end.

(** ** The kernels *)

(** naive_product.c, [Naive_Product]: [P = A * B]. *)
Definition Naive_Product (fuel : nat)
    (A : list Z) (A_len : Z) (B : list Z) (B_len : Z) : M unit :=
  let A_deg := size_sub A_len one in
  let B_deg := size_sub B_len one in
  for_le fuel zero A_deg (fun n =>
    let* a := load A_coeffs A 0 in
    let* b := load B_coeffs B n in
    store_P n (int_mul a b) ;;
    for_le fuel one n (fun m =>
      let* a := load A_coeffs A m in
      let* b := load B_coeffs B (size_sub n m) in
      addto_P n (int_mul a b))) ;;
  for_le fuel (size_add A_deg one) B_deg (fun n =>
    let* a := load A_coeffs A 0 in
    let* b := load B_coeffs B n in
    store_P n (int_mul a b) ;;
    for_le fuel one A_deg (fun m =>
      let* a := load A_coeffs A m in
      let* b := load B_coeffs B (size_sub n m) in
      addto_P n (int_mul a b))) ;;
  for_le fuel (size_add B_deg one) (size_add A_deg B_deg) (fun n =>
    let m := size_sub n B_deg in
    let* a := load A_coeffs A m in
    let* b := load B_coeffs B B_deg in
    store_P n (int_mul a b) ;;
    for_le fuel (size_add m one) A_deg (fun m =>
      let* a := load A_coeffs A m in
      let* b := load B_coeffs B (size_sub n m) in
      addto_P n (int_mul a b))).

(** naive_addto_sum_product.c, [Naive_AddTo_Sum_Product]: documented as
    [P += (A0 + A1) * B]. *)
Definition Naive_AddTo_Sum_Product (fuel : nat)
    (A0 A1 : list Z) (A_len : Z) (B : list Z) (B_len : Z) : M unit :=
  let A_deg := size_sub A_len one in
  let B_deg := size_sub B_len one in
  for_le fuel zero A_deg (fun n =>
    for_le fuel zero n (fun m =>
      let* a0 := load A0_coeffs A0 m in
      let* a1 := load A1_coeffs A1 m in
      let* b := load B_coeffs B (size_sub n m) in
      addto_P n (int_mul (int_add a0 a1) b))) ;;
  for_le fuel (size_add A_deg one) B_deg (fun n =>
    let* a0 := load A0_coeffs A0 0 in
    let* a1 := load A1_coeffs A1 0 in
    let* b := load B_coeffs B n in
    store_P n (int_mul (int_add a0 a1) b) ;;
    for_le fuel one A_deg (fun m =>
      let* a0 := load A0_coeffs A0 m in
      let* a1 := load A1_coeffs A1 m in
      let* b := load B_coeffs B (size_sub n m) in
      addto_P n (int_mul (int_add a0 a1) b))) ;;
  for_le fuel (size_add B_deg one) (size_add A_deg B_deg) (fun n =>
    let m := size_sub n B_deg in
    let* a0 := load A0_coeffs A0 m in
    let* a1 := load A1_coeffs A1 m in
    let* b := load B_coeffs B B_deg in
    store_P n (int_mul (int_add a0 a1) b) ;;
    for_le fuel (size_add m one) A_deg (fun m =>
      let* a0 := load A0_coeffs A0 m in
      let* a1 := load A1_coeffs A1 m in
      let* b := load B_coeffs B (size_sub n m) in
      addto_P n (int_mul (int_add a0 a1) b))).

(** [Scaled_AddTo]: [P += scalar * A]. *)
Definition Scaled_AddTo (fuel : nat) (A : list Z) (len : Z) (scalar : Z)
    : M unit :=
  for_lt fuel zero len (fun n =>
    let* a := load A_coeffs A n in
    addto_P n (int_mul scalar a)).

(** ** Running a kernel on an output buffer *)

(** A call starts with the caller's buffer and an empty access log. *)
Definition call {X} (c : M X) (P : list Z) : outcome X := c (mkState P []).

(** The output buffer after the call, when the call returns. *)
Definition output {X} (o : outcome X) : option (list Z) :=
  match o with
  | Done _ s => Some (mem_P s)
  | _ => None
  end.

(** ** Exact sums and the Cauchy product *)

(** The coefficient of degree [i], as an exact integer. *)
Definition coeff (l : list Z) (i : Z) : Z := default 0 (l !! Z.to_nat i).

(** [f lo + f (lo + 1) + ...], [cnt] terms. *)
Fixpoint sumZ (f : Z -> Z) (lo : Z) (cnt : nat) : Z :=
  match cnt with
  | O => 0
  | S cnt' => f lo + sumZ f (lo + 1) cnt'
  end.

(** The sum of [f i] over [lo <= i < hi]. *)
Definition sum_range (f : Z -> Z) (lo hi : Z) : Z :=
  sumZ f lo (Z.to_nat (hi - lo)).

(** The convolution sum as the specification words it: the sum of
    [a i * b j] over all [0 <= i <= A_len - 1] and [0 <= j <= B_len - 1]
    with [i + j = n]. *)
Definition cauchy (a b : Z -> Z) (A_len B_len n : Z) : Z :=
  sum_range (fun i =>
    sum_range (fun j => if decide (i + j = n) then a i * b j else 0)
              0 B_len) 0 A_len.

(** The term that index [i] of [A] contributes to output index [n]. *)
Definition product_term (A B : list Z) (n i : Z) : Z :=
  coeff A i * coeff B (n - i).

(** What [Naive_Product] leaves at output index [n]. *)
Definition product_coeff (A B : list Z) (n : Z) : Z :=
  wrap_int (cauchy (coeff A) (coeff B) (length A) (length B) n).

(** The access discipline of the products: which array cells a call with
    lengths [A_len] and [B_len] may touch. *)
Definition in_range (A_len B_len : Z) (e : access) : Prop :=
  match e with
  | Read P_coeffs i | Write P_coeffs i => 0 <= i <= A_len + B_len - 2
  | Read B_coeffs i => 0 <= i <= B_len - 1
  | Read _ i => 0 <= i <= A_len - 1
  | Write _ _ => False
  end.

#[global] Instance in_range_dec A_len B_len e : Decision (in_range A_len B_len e).
Proof. destruct e as [[] i|[] i]; simpl; apply _. Defined.

(** The access discipline of [Scaled_AddTo]. *)
Definition in_len (len : Z) (e : access) : Prop :=
  match e with
  | Read P_coeffs i | Write P_coeffs i | Read A_coeffs i => 0 <= i < len
  | _ => False
  end.

#[global] Instance in_len_dec len e : Decision (in_len len e).
Proof. destruct e as [[] i|[] i]; simpl; apply _. Defined.

(** ** Total-correctness predicate *)

(** [wp c Q s]: started in [s], the computation [c] returns (no fault, fuel
    left over) with a value and a state that satisfy [Q]. *)
Definition wp {X} (c : M X) (Q : X -> state -> Prop) (s : state) : Prop :=
  match c s with
  | Done x s' => Q x s'
  | _ => False
  end.

(** Every read of [P_coeffs] comes after a write to the same cell (the
    latest access is at the head of the list). *)
Fixpoint written_before_read (tr : list access) : Prop :=
  match tr with
  | [] => True
  | Read P_coeffs i :: earlier =>
      In (Write P_coeffs i) earlier /\ written_before_read earlier
  | _ :: earlier => written_before_read earlier
  end.

Definition trace_inv (A_len B_len : Z) (tr : list access) : Prop :=
  Forall (in_range A_len B_len) tr /\ written_before_read tr.

(** Outer-loop invariant of [Naive_Product] run on the buffer [P0]: the
    cells below [n] hold their final value, the cells from [n] on still hold
    the caller's value, every access so far was in range and no cell of
    [P_coeffs] was read before it was written. *)
Definition product_inv (A B P0 : list Z) (A_len B_len : Z)
    (n : Z) (s : state) : Prop :=
  length (mem_P s) = length P0 /\
  (forall k, 0 <= k < n ->
     mem_P s !! Z.to_nat k = Some (product_coeff A B k)) /\
  (forall k, n <= k -> mem_P s !! Z.to_nat k = P0 !! Z.to_nat k) /\
  trace_inv A_len B_len (accesses s).

(** What the documented contract [P += (A0 + A1) * B] asks for at output
    index [n], as the specification words it: the caller's [P[n]] plus the
    convolution sum of the [(A0[i] + A1[i]) * B[j]], as an [int]. *)
Definition sum_product_expected (A0 A1 B P : list Z) (n : Z) : Z :=
  wrap_int (coeff P n +
            cauchy (fun i => coeff A0 i + coeff A1 i) (coeff B)
                   (length A0) (length B) n).

(** The term that index [i] of [A0] and [A1] contributes to output index
    [n]. *)
Definition sum_product_term (A0 A1 B : list Z) (n i : Z) : Z :=
  (coeff A0 i + coeff A1 i) * coeff B (n - i).

(** What [Naive_AddTo_Sum_Product] leaves at output index [n] of a buffer
    that held [P]: below [A_len] the caller's value plus the convolution
    sum, from [A_len] on the convolution sum alone. *)
Definition sum_product_coeff (A0 A1 B P : list Z) (n : Z) : Z :=
  if decide (n < length A0)
  then sum_product_expected A0 A1 B P n
  else wrap_int (cauchy (fun i => coeff A0 i + coeff A1 i) (coeff B)
                        (length A0) (length B) n).

(** Outer-loop invariant of [Naive_AddTo_Sum_Product] run on the buffer
    [P0]. *)
Definition sum_product_inv (A0 A1 B P0 : list Z) (A_len B_len : Z)
    (n : Z) (s : state) : Prop :=
  length (mem_P s) = length P0 /\
  (forall k, 0 <= k < n ->
     mem_P s !! Z.to_nat k = Some (sum_product_coeff A0 A1 B P0 k)) /\
  (forall k, n <= k -> mem_P s !! Z.to_nat k = P0 !! Z.to_nat k) /\
  Forall (in_range A_len B_len) (accesses s).

(** [wfp c Q s]: started in [s], the computation [c] does not run out of
    fuel, and if it returns rather than faults, the value and the state
    satisfy [Q].  With [Q] false it says that [c] faults. *)
Definition wfp {X} (c : M X) (Q : X -> state -> Prop) (s : state) : Prop :=
  match c s with
  | Done x s' => Q x s'
  | Fault => True
  | OutOfFuel => False
  end.

(** The pointwise [int] sum of two coefficient arrays. *)
Definition poly_sum (A0 A1 : list Z) : list Z := zip_with int_add A0 A1.

(** An array whose cells all hold representable [int]s. *)
Definition ints (l : list Z) : Prop :=
  Forall (fun z => INT_MIN <= z <= INT_MAX) l.

(** The coefficient array of the monomial [c * x^k]. *)
Definition monomial (k : nat) (c : Z) : list Z := replicate k 0 ++ [c].

(** The accesses of one multiply-and-store step of [Naive_Product]: the
    read of [A_coeffs], the read of [B_coeffs], the write to [P_coeffs]. *)
Inductive kind : Set := ReadA | ReadB | WriteP.

Definition is_kind (k : kind) (e : access) : bool :=
  match k, e with
  | ReadA, Read A_coeffs _ => true
  | ReadB, Read B_coeffs _ => true
  | WriteP, Write P_coeffs _ => true
  | _, _ => false
  end.

(** The number of accesses of kind [k] in a log. *)
Fixpoint count_kind (k : kind) (tr : list access) : Z :=
  match tr with
  | [] => 0
  | e :: tr' => (if is_kind k e then 1 else 0) + count_kind k tr'
  end.

(** [b[i]] for an input pointer [b] that points to the array [P_coeffs]
    points to: the read sees the current content of the output buffer. *)
Definition load_shared (b : buffer) (i : Z) : M Z :=
  fun s =>
    match mem_P s !! Z.to_nat i with
    | Some v => Done v (record (Read b i) s)
    | None => Fault
    end.

(** [Scaled_AddTo (P_coeffs, P_coeffs, len, scalar)]: the call whose input
    pointer [A_coeffs] is the output pointer. *)
Definition Scaled_AddTo_in_place (fuel : nat) (len : Z) (scalar : Z)
    : M unit :=
  for_lt fuel zero len (fun n =>
    let* a := load_shared A_coeffs n in
    addto_P n (int_mul scalar a)).

(** * Properties *)

(** ** Wrap-around arithmetic *)

Lemma wrap_int_spec z : exists k, wrap_int z = z + k * 2 ^ INT_BITS.
Proof.
  unfold wrap_int. exists (- ((z - INT_MIN) `div` 2 ^ INT_BITS)).
  pose proof (Z.div_mod (z - INT_MIN) (2 ^ INT_BITS)) as H.
  unfold INT_BITS in *. lia.
Qed.

Lemma wrap_int_shift z k : wrap_int (z + k * 2 ^ INT_BITS) = wrap_int z.
Proof.
  unfold wrap_int.
  replace (z + k * 2 ^ INT_BITS - INT_MIN)
    with (z - INT_MIN + k * 2 ^ INT_BITS) by ring.
  by rewrite Z_mod_plus_full.
Qed.

Lemma wrap_int_bounds z : INT_MIN <= wrap_int z <= INT_MAX.
Proof.
  unfold wrap_int, INT_MAX, INT_MIN, INT_BITS.
  pose proof (Z.mod_pos_bound (z - - 2 ^ (32 - 1)) (2 ^ 32)). lia.
Qed.

Lemma wrap_int_small z : INT_MIN <= z <= INT_MAX -> wrap_int z = z.
Proof.
  unfold wrap_int, INT_MAX, INT_MIN, INT_BITS. intros H.
  rewrite Z.mod_small; lia.
Qed.

Lemma wrap_int_idemp z : wrap_int (wrap_int z) = wrap_int z.
Proof. apply wrap_int_small, wrap_int_bounds. Qed.

Lemma wrap_int_add_l a b : wrap_int (wrap_int a + b) = wrap_int (a + b).
Proof.
  destruct (wrap_int_spec a) as [k ->].
  replace (a + k * 2 ^ INT_BITS + b) with (a + b + k * 2 ^ INT_BITS) by ring.
  apply wrap_int_shift.
Qed.

Lemma wrap_int_add_r a b : wrap_int (a + wrap_int b) = wrap_int (a + b).
Proof. rewrite (Z.add_comm a), wrap_int_add_l. f_equal; ring. Qed.

Lemma wrap_int_mul_l a b : wrap_int (wrap_int a * b) = wrap_int (a * b).
Proof.
  destruct (wrap_int_spec a) as [k ->].
  replace ((a + k * 2 ^ INT_BITS) * b)
    with (a * b + (k * b) * 2 ^ INT_BITS) by ring.
  apply wrap_int_shift.
Qed.

Lemma wrap_int_mul_r a b : wrap_int (a * wrap_int b) = wrap_int (a * b).
Proof. rewrite (Z.mul_comm a), wrap_int_mul_l. f_equal; ring. Qed.

Lemma wrap_int_zero_iff z : wrap_int z = 0 <-> z mod 2 ^ INT_BITS = 0.
Proof.
  split.
  - intros H. destruct (wrap_int_spec z) as [k Hk].
    replace z with (0 + (- k) * 2 ^ INT_BITS) by lia.
    by rewrite Z_mod_plus_full.
  - intros H. apply Z.mod_divide in H; [|done]. destruct H as [k ->].
    rewrite <- (Z.add_0_l (k * _)), wrap_int_shift. done.
Qed.

Lemma int_add_mul p a b : int_add p (int_mul a b) = wrap_int (p + a * b).
Proof. unfold int_add, int_mul. apply wrap_int_add_r. Qed.

Lemma wrap_size_small z : 0 <= z <= SIZE_MAX -> wrap_size z = z.
Proof. unfold wrap_size, SIZE_MAX. intros H. apply Z.mod_small. lia. Qed.

Lemma zero_eq : zero = 0.
Proof. done. Qed.

Lemma one_eq : one = 1.
Proof. done. Qed.

Lemma size_add_small a b : 0 <= a + b <= SIZE_MAX -> size_add a b = a + b.
Proof. apply wrap_size_small. Qed.

Lemma size_sub_small a b : 0 <= a - b <= SIZE_MAX -> size_sub a b = a - b.
Proof. apply wrap_size_small. Qed.

(** ** Sums *)

Lemma sumZ_ext f g lo cnt :
  (forall i, lo <= i < lo + Z.of_nat cnt -> f i = g i) ->
  sumZ f lo cnt = sumZ g lo cnt.
Proof.
  revert lo. induction cnt as [|cnt IH]; intros lo H; simpl; [done|].
  rewrite H by lia. f_equal. apply IH. intros i Hi. apply H. lia.
Qed.

Lemma sumZ_app f lo c1 c2 :
  sumZ f lo (c1 + c2) = sumZ f lo c1 + sumZ f (lo + Z.of_nat c1) c2.
Proof.
  revert lo. induction c1 as [|c1 IH]; intros lo.
  - simpl. by rewrite Z.add_0_r.
  - rewrite Nat2Z.inj_succ. cbn [Nat.add sumZ]. rewrite IH.
    replace (lo + 1 + Z.of_nat c1) with (lo + Z.succ (Z.of_nat c1)) by lia.
    ring.
Qed.

Lemma sumZ_zero lo cnt : sumZ (fun _ => 0) lo cnt = 0.
Proof. revert lo. induction cnt as [|cnt IH]; intros lo; simpl; [done|]. by rewrite IH. Qed.

Lemma sumZ_plus f g lo cnt :
  sumZ (fun i => f i + g i) lo cnt = sumZ f lo cnt + sumZ g lo cnt.
Proof.
  revert lo. induction cnt as [|cnt IH]; intros lo; simpl; [done|].
  rewrite IH. ring.
Qed.

Lemma sumZ_swap (f : Z -> Z -> Z) lo1 c1 lo2 c2 :
  sumZ (fun i => sumZ (fun j => f i j) lo2 c2) lo1 c1 =
  sumZ (fun j => sumZ (fun i => f i j) lo1 c1) lo2 c2.
Proof.
  revert lo1. induction c1 as [|c1 IH]; intros lo1; simpl.
  - by rewrite sumZ_zero.
  - rewrite IH. by rewrite sumZ_plus.
Qed.

Lemma sum_range_nil f lo hi : hi <= lo -> sum_range f lo hi = 0.
Proof. intros H. unfold sum_range. by replace (Z.to_nat (hi - lo)) with O by lia. Qed.

Lemma sum_range_split f lo mid hi :
  lo <= mid <= hi ->
  sum_range f lo hi = sum_range f lo mid + sum_range f mid hi.
Proof.
  intros H. unfold sum_range.
  replace (Z.to_nat (hi - lo))
    with (Z.to_nat (mid - lo) + Z.to_nat (hi - mid))%nat by lia.
  rewrite sumZ_app. do 2 f_equal. lia.
Qed.

Lemma sum_range_one f lo : sum_range f lo (lo + 1) = f lo.
Proof.
  unfold sum_range. replace (Z.to_nat (lo + 1 - lo)) with 1%nat by lia.
  simpl. lia.
Qed.

Lemma sum_range_snoc f lo hi :
  lo <= hi -> sum_range f lo (hi + 1) = sum_range f lo hi + f hi.
Proof.
  intros H. rewrite (sum_range_split f lo hi (hi + 1)) by lia.
  by rewrite sum_range_one.
Qed.

Lemma sum_range_ext f g lo hi :
  (forall i, lo <= i < hi -> f i = g i) -> sum_range f lo hi = sum_range g lo hi.
Proof. intros H. apply sumZ_ext. intros i Hi. apply H. lia. Qed.

Lemma sum_range_zero f lo hi :
  (forall i, lo <= i < hi -> f i = 0) -> sum_range f lo hi = 0.
Proof.
  intros H. rewrite (sum_range_ext f (fun _ => 0)) by done. apply sumZ_zero.
Qed.

Lemma sum_range_swap (f : Z -> Z -> Z) lo1 hi1 lo2 hi2 :
  sum_range (fun i => sum_range (fun j => f i j) lo2 hi2) lo1 hi1 =
  sum_range (fun j => sum_range (fun i => f i j) lo1 hi1) lo2 hi2.
Proof. apply sumZ_swap. Qed.

(** Summing an indicator picks out a single term. *)
Lemma sum_range_pick (g : Z -> Z) k lo hi :
  sum_range (fun j => if decide (j = k) then g j else 0) lo hi =
  if decide (lo <= k < hi) then g k else 0.
Proof.
  case_decide as Hk.
  - rewrite (sum_range_split _ lo k hi) by lia.
    rewrite (sum_range_split _ k (k + 1) hi) by lia.
    rewrite sum_range_one, decide_True by done.
    rewrite !sum_range_zero; [lia| |]; intros i Hi; rewrite decide_False; lia.
  - destruct (decide (lo <= hi)).
    + apply sum_range_zero. intros i Hi. rewrite decide_False; lia.
    + apply sum_range_nil. lia.
Qed.

(** Summing a function that vanishes outside a band keeps the band only. *)
Lemma sum_range_band (f : Z -> Z) lo hi lo' hi' :
  lo <= lo' <= hi' -> hi' <= hi ->
  sum_range (fun i => if decide (lo' <= i < hi') then f i else 0) lo hi =
  sum_range f lo' hi'.
Proof.
  intros H1 H2.
  rewrite (sum_range_split _ lo lo' hi) by lia.
  rewrite (sum_range_split _ lo' hi' hi) by lia.
  rewrite (sum_range_zero _ lo lo'), (sum_range_zero _ hi' hi).
  - rewrite Z.add_0_l, Z.add_0_r. apply sum_range_ext.
    intros i Hi. by rewrite decide_True.
  - intros i Hi. rewrite decide_False; lia.
  - intros i Hi. rewrite decide_False; lia.
Qed.

(** The Cauchy sum at output index [n] is the sum along the band
    [max 0 (n - B_deg) <= i <= min n A_deg]. *)
Lemma cauchy_band a b A_len B_len n lo hi :
  lo = Z.max 0 (n - (B_len - 1)) -> hi = Z.min n (A_len - 1) + 1 ->
  lo <= hi ->
  cauchy a b A_len B_len n = sum_range (fun i => a i * b (n - i)) lo hi.
Proof.
  intros Hlo Hhi Hle. unfold cauchy.
  rewrite <- (sum_range_band _ 0 A_len lo hi) by lia.
  apply sum_range_ext. intros i Hi.
  rewrite (sum_range_ext _
    (fun j => if decide (j = n - i) then a i * b j else 0)).
  - rewrite sum_range_pick. repeat case_decide; lia || done.
  - intros j Hj. repeat case_decide; lia || done.
Qed.

Lemma cauchy_comm a b A_len B_len n :
  cauchy a b A_len B_len n = cauchy b a B_len A_len n.
Proof.
  unfold cauchy. rewrite sum_range_swap.
  apply sum_range_ext. intros j Hj. apply sum_range_ext. intros i Hi.
  repeat case_decide; lia.
Qed.

(** ** Rules of the total-correctness predicate *)

Lemma wp_ret {X} (x : X) Q s : Q x s -> wp (ret x) Q s.
Proof. done. Qed.

Lemma wp_bind {X Y} (c : M X) (k : X -> M Y) Q s :
  wp c (fun x s' => wp (k x) Q s') s -> wp (bind c k) Q s.
Proof. unfold wp, bind. by destruct (c s). Qed.

Lemma wp_mono {X} (c : M X) (Q Q' : X -> state -> Prop) s :
  wp c Q s -> (forall x s', Q x s' -> Q' x s') -> wp c Q' s.
Proof. unfold wp. destruct (c s); auto. Qed.

Lemma wp_call {X} (c : M X) Q P :
  wp c Q (mkState P []) -> exists x s', call c P = Done x s' /\ Q x s'.
Proof. unfold wp, call. destruct (c _); [eauto|done..]. Qed.

Lemma lookup_coeff (l : list Z) i :
  0 <= i < length l -> l !! Z.to_nat i = Some (coeff l i).
Proof.
  intros H. unfold coeff.
  destruct (lookup_lt_is_Some_2 l (Z.to_nat i)) as [v ->]; [lia|done].
Qed.

Lemma lookup_insert_Z (l : list Z) i k v :
  0 <= i < length l -> 0 <= k ->
  <[Z.to_nat i := v]> l !! Z.to_nat k =
  if decide (k = i) then Some v else l !! Z.to_nat k.
Proof.
  intros Hi Hk. case_decide as E.
  - subst k. apply list_lookup_insert_eq. lia.
  - apply list_lookup_insert_ne. lia.
Qed.

Lemma wp_load b arr i Q s :
  0 <= i < length arr ->
  Q (coeff arr i) (mkState (mem_P s) (Read b i :: accesses s)) ->
  wp (load b arr i) Q s.
Proof. intros Hi HQ. unfold wp, load. by rewrite lookup_coeff. Qed.

Lemma wp_load_P i Q s :
  0 <= i < length (mem_P s) ->
  Q (coeff (mem_P s) i) (mkState (mem_P s) (Read P_coeffs i :: accesses s)) ->
  wp (load_P i) Q s.
Proof. intros Hi HQ. unfold wp, load_P. by rewrite lookup_coeff. Qed.

Lemma wp_store_P i v (Q : unit -> state -> Prop) s :
  0 <= i < length (mem_P s) ->
  Q tt (mkState (<[Z.to_nat i := v]> (mem_P s))
                (Write P_coeffs i :: accesses s)) ->
  wp (store_P i v) Q s.
Proof. intros Hi HQ. unfold wp, store_P. rewrite decide_True by lia. done. Qed.

Lemma wp_addto_P i v (Q : unit -> state -> Prop) s :
  0 <= i < length (mem_P s) ->
  Q tt (mkState (<[Z.to_nat i := int_add (coeff (mem_P s) i) v]> (mem_P s))
                (Write P_coeffs i :: Read P_coeffs i :: accesses s)) ->
  wp (addto_P i v) Q s.
Proof.
  intros Hi HQ. unfold addto_P. apply wp_bind, wp_load_P; [done|].
  by apply wp_store_P.
Qed.

(** Invariant rule for [for (n = lo; n <= hi; ++n)]: the loop returns as
    soon as the bound is not the largest [size_t] and the fuel covers the
    iterations. *)
Lemma wp_for_le (I : Z -> state -> Prop) body hi fuel :
  hi < SIZE_MAX ->
  forall lo s,
    0 <= lo <= hi + 1 -> hi + 1 - lo < Z.of_nat fuel ->
    I lo s ->
    (forall n s', lo <= n <= hi -> I n s' ->
                  wp (body n) (fun _ => I (n + 1)) s') ->
    wp (for_le fuel lo hi body) (fun _ => I (hi + 1)) s.
Proof.
  intros Hhi. induction fuel as [|fuel IH]; intros lo s Hlo Hfuel HI Hbody.
  - lia.
  - cbn [for_le]. case_decide as Hle.
    + apply wp_bind. eapply wp_mono; [apply Hbody; [lia|done]|].
      intros [] s' HI'. cbv beta.
      rewrite one_eq, size_add_small by lia.
      apply IH; [lia|lia|done|]. intros n s'' Hn. apply Hbody. lia.
    + apply wp_ret. by replace (hi + 1) with lo by lia.
Qed.

(** Invariant rule for [for (n = lo; n < hi; ++n)]. *)
Lemma wp_for_lt (I : Z -> state -> Prop) body hi fuel :
  hi <= SIZE_MAX ->
  forall lo s,
    0 <= lo <= hi -> hi - lo < Z.of_nat fuel ->
    I lo s ->
    (forall n s', lo <= n < hi -> I n s' ->
                  wp (body n) (fun _ => I (n + 1)) s') ->
    wp (for_lt fuel lo hi body) (fun _ => I hi) s.
Proof.
  intros Hhi. induction fuel as [|fuel IH]; intros lo s Hlo Hfuel HI Hbody.
  - lia.
  - cbn [for_lt]. case_decide as Hlt.
    + apply wp_bind. eapply wp_mono; [apply Hbody; [lia|done]|].
      intros [] s' HI'. cbv beta.
      rewrite one_eq, size_add_small by lia.
      apply IH; [lia|lia|done|]. intros n s'' Hn. apply Hbody. lia.
    + apply wp_ret. by replace hi with lo by lia.
Qed.

(** ** Scaled_AddTo *)

Lemma Scaled_AddTo_run (fuel : nat) (A P : list Z) (len c : Z) :
  len = length A -> len <= length P -> len <= SIZE_MAX ->
  len < Z.of_nat fuel ->
  wp (Scaled_AddTo fuel A len c)
     (fun _ s' =>
        length (mem_P s') = length P /\
        (forall k, 0 <= k < len ->
           mem_P s' !! Z.to_nat k =
           Some (wrap_int (coeff P k + c * coeff A k))) /\
        (forall k, len <= k -> mem_P s' !! Z.to_nat k = P !! Z.to_nat k) /\
        Forall (in_len len) (accesses s'))
     (mkState P []).
Proof.
  intros HA HP Hmax Hfuel. unfold Scaled_AddTo. rewrite zero_eq.
  apply (wp_for_lt (fun n s' =>
    length (mem_P s') = length P /\
    (forall k, 0 <= k < n ->
       mem_P s' !! Z.to_nat k = Some (wrap_int (coeff P k + c * coeff A k))) /\
    (forall k, n <= k -> mem_P s' !! Z.to_nat k = P !! Z.to_nat k) /\
    Forall (in_len len) (accesses s'))); [done|lia|lia| |].
  - simpl. split; [done|]. split; [intros; lia|]. split; [done|constructor].
  - intros n s' Hn (Hlen & Hlo & Hhi & Hacc).
    apply wp_bind, wp_load; [lia|]. apply wp_addto_P; simpl; [lia|].
    rewrite length_insert. split; [done|]. split; [|split].
    + intros k Hk. rewrite lookup_insert_Z by lia. case_decide as E.
      * subst k. rewrite int_add_mul. do 3 f_equal.
        unfold coeff. by rewrite Hhi by lia.
      * apply Hlo. lia.
    + intros k Hk. rewrite lookup_insert_Z, decide_False by lia.
      apply Hhi. lia.
    + repeat constructor; simpl; lia || done.
Qed.

Lemma coeff_insert (l : list Z) n x :
  0 <= n < length l -> coeff (<[Z.to_nat n := x]> l) n = x.
Proof. intros H. unfold coeff. rewrite list_lookup_insert_eq by lia. done. Qed.

(** ** Naive_Product *)

Section Naive_Product_correct.
Variables (A B P0 : list Z) (A_len B_len : Z) (fuel : nat).
Hypothesis HA : A_len = length A.
Hypothesis HB : B_len = length B.
Hypothesis HA1 : 1 <= A_len.
Hypothesis HAB : A_len <= B_len.
Hypothesis HP : A_len + B_len - 1 <= length P0.
Hypothesis HPmax : length P0 <= SIZE_MAX.
Hypothesis Hfuel : B_len < fuel.

Local Abbreviation ok := (trace_inv A_len B_len).

Lemma trace_inv_load b i tr :
  b <> P_coeffs -> in_range A_len B_len (Read b i) ->
  ok tr -> ok (Read b i :: tr).
Proof.
  intros Hb Hi [Hr Hw]. split; [by constructor|]. by destruct b.
Qed.

Lemma trace_inv_load_P i tr :
  0 <= i <= A_len + B_len - 2 -> In (Write P_coeffs i) tr ->
  ok tr -> ok (Read P_coeffs i :: tr).
Proof. intros Hi Hin [Hr Hw]. split; [by constructor|done]. Qed.

Lemma trace_inv_store_P i tr :
  0 <= i <= A_len + B_len - 2 -> ok tr -> ok (Write P_coeffs i :: tr).
Proof. intros Hi [Hr Hw]. split; [by constructor|done]. Qed.
Local Abbreviation term := (product_term A B).
Local Abbreviation inv := (product_inv A B P0 A_len B_len).

(** The accumulating inner loop of every region: entered with
    [P_coeffs[n]] holding the terms [lo0 .. lo - 1], it leaves the terms
    [lo0 .. hi] there and touches nothing else. *)
Lemma product_inner n lo0 lo hi s :
  0 <= n <= A_len + B_len - 2 ->
  0 <= lo0 -> lo0 < lo <= hi + 1 -> hi <= A_len - 1 -> hi <= n ->
  n - lo0 <= B_len - 1 ->
  length (mem_P s) = length P0 ->
  mem_P s !! Z.to_nat n = Some (wrap_int (sum_range (term n) lo0 lo)) ->
  ok (accesses s) -> In (Write P_coeffs n) (accesses s) ->
  wp (for_le fuel lo hi (fun m =>
        let* a := load A_coeffs A m in
        let* b := load B_coeffs B (size_sub n m) in
        addto_P n (int_mul a b)))
     (fun _ s' =>
        mem_P s' =
          <[Z.to_nat n := wrap_int (sum_range (term n) lo0 (hi + 1))]>
            (mem_P s) /\
        ok (accesses s'))
     s.
Proof.
  intros Hn Hlo0 Hlo Hhi Hhin Hb Hlen Hcur Hacc Hwr.
  eapply wp_mono.
  { apply (wp_for_le (fun m s' =>
      mem_P s' = <[Z.to_nat n := wrap_int (sum_range (term n) lo0 m)]>
                   (mem_P s) /\
      ok (accesses s') /\ In (Write P_coeffs n) (accesses s')));
      [lia|lia|lia| |].
    - split; [|done]. symmetry. by apply list_insert_id.
    - intros m s' Hm (Hmem & Hacc' & Hwr').
      apply wp_bind, wp_load; [lia|].
      rewrite size_sub_small by lia.
      apply wp_bind, wp_load; [lia|].
      apply wp_addto_P; cbn [mem_P accesses].
      { rewrite Hmem, length_insert. lia. }
      split.
      + rewrite Hmem, coeff_insert, list_insert_insert_eq by lia.
        rewrite int_add_mul, wrap_int_add_l, sum_range_snoc by lia. done.
      + split; [|by left].
        apply trace_inv_store_P; [lia|].
        apply trace_inv_load_P; [lia|by do 2 right|].
        apply trace_inv_load; [done|simpl; lia|].
        apply trace_inv_load; [done|simpl; lia|done]. }
  intros [] s' (Hmem & Hacc' & _). by split.
Qed.

(** One iteration of an outer loop: the first term is assigned, the
    others are accumulated. *)
Lemma product_body n m0 bidx lo hi s :
  bidx = n - m0 -> lo = m0 + 1 ->
  0 <= n <= A_len + B_len - 2 ->
  0 <= m0 <= hi -> hi <= A_len - 1 -> hi <= n -> n - m0 <= B_len - 1 ->
  length (mem_P s) = length P0 ->
  ok (accesses s) ->
  wp (let* a := load A_coeffs A m0 in
      let* b := load B_coeffs B bidx in
      store_P n (int_mul a b) ;;
      for_le fuel lo hi (fun m =>
        let* a := load A_coeffs A m in
        let* b := load B_coeffs B (size_sub n m) in
        addto_P n (int_mul a b)))
     (fun _ s' =>
        mem_P s' =
          <[Z.to_nat n := wrap_int (sum_range (term n) m0 (hi + 1))]>
            (mem_P s) /\
        ok (accesses s'))
     s.
Proof.
  intros -> -> Hn Hm0 Hhi Hhin Hb Hlen Hacc.
  apply wp_bind, wp_load; [lia|].
  apply wp_bind, wp_load; [lia|].
  apply wp_bind, wp_store_P; cbn [mem_P accesses]; [lia|].
  eapply wp_mono.
  - apply (product_inner n m0); cbn [mem_P accesses]; try lia.
    + rewrite length_insert. lia.
    + rewrite list_lookup_insert_eq by lia.
      unfold int_mul. by rewrite sum_range_one.
    + apply trace_inv_store_P; [lia|].
      apply trace_inv_load; [done|simpl; lia|].
      apply trace_inv_load; [done|simpl; lia|done].
    + by left.
  - intros [] s' [Hmem Hacc']. cbn [mem_P] in Hmem.
    by rewrite list_insert_insert_eq in Hmem.
Qed.

Lemma product_inv_step n m0 hi s s' :
  0 <= n <= A_len + B_len - 2 ->
  m0 = Z.max 0 (n - (B_len - 1)) -> hi = Z.min n (A_len - 1) ->
  inv n s ->
  mem_P s' =
    <[Z.to_nat n := wrap_int (sum_range (term n) m0 (hi + 1))]> (mem_P s) ->
  ok (accesses s') ->
  inv (n + 1) s'.
Proof.
  intros Hn Hm0 Hhi (Hlen & Hlo & Hup & _) Hmem Hacc.
  split; [|split; [|split]]; [| | |done].
  - by rewrite Hmem, length_insert.
  - intros k Hk. rewrite Hmem, lookup_insert_Z by lia. case_decide as E.
    + subst k. unfold product_coeff. rewrite <- HA, <- HB.
      by rewrite (cauchy_band _ _ _ _ _ m0 (hi + 1)) by lia.
    + apply Hlo. lia.
  - intros k Hk. rewrite Hmem, lookup_insert_Z, decide_False by lia.
    apply Hup. lia.
Qed.

Lemma Naive_Product_run :
  wp (Naive_Product fuel A A_len B B_len)
     (fun _ => inv (A_len + B_len - 1)) (mkState P0 []).
Proof.
  unfold Naive_Product. cbv zeta.
  rewrite one_eq, zero_eq.
  rewrite (size_sub_small A_len 1), (size_sub_small B_len 1) by lia.
  rewrite !size_add_small by lia.
  apply wp_bind. eapply wp_mono.
  { apply (wp_for_le inv); [lia|lia|lia| |].
    - split; [done|]. split; [intros; lia|]. split; [done|].
      split; [constructor|done].
    - intros n s Hn Hinv. eapply wp_mono.
      + apply (product_body n 0 n 1 n); try lia; apply Hinv.
      + intros [] s' [Hmem Hacc].
        by apply (product_inv_step n 0 n s); try lia. }
  intros [] s1 Hinv1. apply wp_bind. eapply wp_mono.
  { apply (wp_for_le inv); [lia|lia|lia| |].
    - exact Hinv1.
    - intros n s Hn Hinv. eapply wp_mono.
      + apply (product_body n 0 n 1 (A_len - 1)); try lia; apply Hinv.
      + intros [] s' [Hmem Hacc].
        by apply (product_inv_step n 0 (A_len - 1) s); try lia. }
  intros [] s2 Hinv2. eapply wp_mono.
  { apply (wp_for_le inv); [lia|lia|lia| |].
    - exact Hinv2.
    - intros n s Hn Hinv.
      rewrite (size_sub_small n (B_len - 1)) by lia.
      rewrite size_add_small by lia.
      eapply wp_mono.
      + apply (product_body n (n - (B_len - 1)) (B_len - 1) _ (A_len - 1));
          try lia; apply Hinv.
      + intros [] s' [Hmem Hacc].
        by apply (product_inv_step n (n - (B_len - 1)) (A_len - 1) s);
          try lia. }
  intros [] s3 Hinv3.
  by replace (A_len - 1 + (B_len - 1) + 1) with (A_len + B_len - 1)
    in Hinv3 by lia.
Qed.
End Naive_Product_correct.

(** ** Naive_AddTo_Sum_Product *)

Lemma sum_product_step v a0 a1 b :
  int_add v (int_mul (int_add a0 a1) b) = wrap_int (v + (a0 + a1) * b).
Proof.
  unfold int_add, int_mul.
  rewrite wrap_int_add_r, <- wrap_int_add_r, wrap_int_mul_l.
  apply wrap_int_add_r.
Qed.

Section Naive_AddTo_Sum_Product_correct.
Variables (A0 A1 B P0 : list Z) (A_len B_len : Z) (fuel : nat).
Hypothesis HA0 : A_len = length A0.
Hypothesis HA1 : A_len = length A1.
Hypothesis HB : B_len = length B.
Hypothesis Hlen1 : 1 <= A_len.
Hypothesis HAB : A_len <= B_len.
Hypothesis HP : A_len + B_len - 1 <= length P0.
Hypothesis HPmax : length P0 <= SIZE_MAX.
Hypothesis Hfuel : B_len < fuel.

Local Abbreviation ok := (in_range A_len B_len).
Local Abbreviation term := (sum_product_term A0 A1 B).
Local Abbreviation inv := (sum_product_inv A0 A1 B P0 A_len B_len).

(** The accumulating inner loop: entered with [P_coeffs[n]] congruent to
    [base] plus the terms [lo0 .. lo - 1], it leaves [base] plus the terms
    [lo0 .. hi] there, as an [int], and touches nothing else. *)
Lemma sum_product_inner n lo0 lo hi base cur s :
  0 <= n <= A_len + B_len - 2 ->
  0 <= lo0 <= lo -> lo <= hi + 1 -> hi <= A_len - 1 -> hi <= n ->
  n - lo0 <= B_len - 1 ->
  length (mem_P s) = length P0 ->
  mem_P s !! Z.to_nat n = Some cur ->
  wrap_int cur = wrap_int (base + sum_range (term n) lo0 lo) ->
  lo <= hi \/ cur = wrap_int cur ->
  Forall ok (accesses s) ->
  wp (for_le fuel lo hi (fun m =>
        let* a0 := load A0_coeffs A0 m in
        let* a1 := load A1_coeffs A1 m in
        let* b := load B_coeffs B (size_sub n m) in
        addto_P n (int_mul (int_add a0 a1) b)))
     (fun _ s' =>
        mem_P s' =
          <[Z.to_nat n := wrap_int (base + sum_range (term n) lo0 (hi + 1))]>
            (mem_P s) /\
        Forall ok (accesses s'))
     s.
Proof.
  intros Hn Hlo0 Hlo Hhi Hhin Hb Hlen Hcur Hcong Hiter Hacc.
  eapply wp_mono.
  { apply (wp_for_le (fun m s' =>
      (exists v, mem_P s' = <[Z.to_nat n := v]> (mem_P s) /\
                 wrap_int v = wrap_int (base + sum_range (term n) lo0 m) /\
                 (m = lo /\ v = cur \/ v = wrap_int v)) /\
      Forall ok (accesses s'))); [lia|lia|lia| |].
    - split; [|done]. exists cur. split; [|split; [done|by left]].
      symmetry. by apply list_insert_id.
    - intros m s' Hm [(v & Hmem & Hv & _) Hacc'].
      apply wp_bind, wp_load; [lia|].
      apply wp_bind, wp_load; [lia|].
      rewrite size_sub_small by lia.
      apply wp_bind, wp_load; [lia|].
      apply wp_addto_P; cbn [mem_P accesses].
      { rewrite Hmem, length_insert. lia. }
      split.
      + eexists. split; [|split].
        * by rewrite Hmem, coeff_insert, list_insert_insert_eq by lia.
        * rewrite sum_product_step, wrap_int_idemp.
          rewrite <- wrap_int_add_l, Hv, wrap_int_add_l.
          rewrite sum_range_snoc by lia. f_equal. unfold sum_product_term.
          ring.
        * right. by rewrite sum_product_step, wrap_int_idemp.
      + repeat constructor; simpl; lia || done. }
  intros [] s' [(v & Hmem & Hv & Hw) Hacc']. split; [|done].
  rewrite Hmem. f_equal. rewrite <- Hv.
  destruct Hw as [[Hm ->]|Hw]; [|done]. destruct Hiter; [lia|done].
Qed.

(** One iteration of the second and of the third outer loop: the first
    term is assigned over the cell, the others are accumulated. *)
Lemma sum_product_body n m0 bidx lo hi s :
  bidx = n - m0 -> lo = m0 + 1 ->
  0 <= n <= A_len + B_len - 2 ->
  0 <= m0 <= hi -> hi <= A_len - 1 -> hi <= n -> n - m0 <= B_len - 1 ->
  length (mem_P s) = length P0 ->
  Forall ok (accesses s) ->
  wp (let* a0 := load A0_coeffs A0 m0 in
      let* a1 := load A1_coeffs A1 m0 in
      let* b := load B_coeffs B bidx in
      store_P n (int_mul (int_add a0 a1) b) ;;
      for_le fuel lo hi (fun m =>
        let* a0 := load A0_coeffs A0 m in
        let* a1 := load A1_coeffs A1 m in
        let* b := load B_coeffs B (size_sub n m) in
        addto_P n (int_mul (int_add a0 a1) b)))
     (fun _ s' =>
        mem_P s' =
          <[Z.to_nat n := wrap_int (0 + sum_range (term n) m0 (hi + 1))]>
            (mem_P s) /\
        Forall ok (accesses s'))
     s.
Proof.
  intros -> -> Hn Hm0 Hhi Hhin Hb Hlen Hacc.
  apply wp_bind, wp_load; [lia|].
  apply wp_bind, wp_load; [lia|].
  apply wp_bind, wp_load; [lia|].
  apply wp_bind, wp_store_P; cbn [mem_P accesses]; [lia|].
  eapply wp_mono.
  - apply (sum_product_inner n m0 _ _ 0
             (int_mul (int_add (coeff A0 m0) (coeff A1 m0))
                      (coeff B (n - m0))));
      cbn [mem_P accesses]; try lia.
    + rewrite length_insert. lia.
    + by rewrite list_lookup_insert_eq by lia.
    + unfold int_mul, int_add.
      by rewrite wrap_int_idemp, wrap_int_mul_l, sum_range_one.
    + right. unfold int_mul. by rewrite wrap_int_idemp.
    + repeat constructor; simpl; lia || done.
  - intros [] s' [Hmem Hacc']. cbn [mem_P] in Hmem.
    by rewrite list_insert_insert_eq in Hmem.
Qed.

Lemma sum_product_inv_step n m0 hi base s s' :
  0 <= n <= A_len + B_len - 2 ->
  m0 = Z.max 0 (n - (B_len - 1)) -> hi = Z.min n (A_len - 1) ->
  base = (if decide (n < A_len) then coeff P0 n else 0) ->
  inv n s ->
  mem_P s' =
    <[Z.to_nat n := wrap_int (base + sum_range (term n) m0 (hi + 1))]>
      (mem_P s) ->
  Forall ok (accesses s') ->
  inv (n + 1) s'.
Proof.
  intros Hn Hm0 Hhi Hbase (Hlen & Hlo & Hup & _) Hmem Hacc.
  split; [|split; [|split]]; [| | |done].
  - by rewrite Hmem, length_insert.
  - intros k Hk. rewrite Hmem, lookup_insert_Z by lia.
    destruct (decide (k = n)) as [->|E].
    + unfold sum_product_coeff, sum_product_expected.
      rewrite <- HA0, <- HB.
      rewrite (cauchy_band _ _ _ _ _ m0 (hi + 1)) by lia.
      subst base. by case_decide.
    + apply Hlo. lia.
  - intros k Hk. rewrite Hmem, lookup_insert_Z, decide_False by lia.
    apply Hup. lia.
Qed.

Lemma Naive_AddTo_Sum_Product_run :
  wp (Naive_AddTo_Sum_Product fuel A0 A1 A_len B B_len)
     (fun _ => inv (A_len + B_len - 1)) (mkState P0 []).
Proof.
  unfold Naive_AddTo_Sum_Product. cbv zeta.
  rewrite one_eq, zero_eq.
  rewrite (size_sub_small A_len 1), (size_sub_small B_len 1) by lia.
  rewrite !size_add_small by lia.
  apply wp_bind. eapply wp_mono.
  { apply (wp_for_le inv); [lia|lia|lia| |].
    - split; [done|]. split; [intros; lia|]. split; [done|constructor].
    - intros n s Hn Hinv. pose proof Hinv as (Hlen & _ & Hup & Hacc).
      eapply wp_mono.
      + apply (sum_product_inner n 0 0 n (coeff P0 n) (coeff P0 n));
          try lia; try done.
        * rewrite Hup by lia. apply lookup_coeff. lia.
        * by rewrite sum_range_nil, Z.add_0_r by lia.
      + intros [] s' [Hmem Hacc'].
        apply (sum_product_inv_step n 0 n (coeff P0 n) s); try lia; try done.
        by rewrite decide_True by lia. }
  intros [] s1 Hinv1. apply wp_bind. eapply wp_mono.
  { apply (wp_for_le inv); [lia|lia|lia|exact Hinv1|].
    intros n s Hn Hinv. eapply wp_mono.
    + apply (sum_product_body n 0 n 1 (A_len - 1)); try lia; apply Hinv.
    + intros [] s' [Hmem Hacc].
      apply (sum_product_inv_step n 0 (A_len - 1) 0 s); try lia; try done.
      by rewrite decide_False by lia. }
  intros [] s2 Hinv2. eapply wp_mono.
  { apply (wp_for_le inv); [lia|lia|lia|exact Hinv2|].
    intros n s Hn Hinv.
    rewrite (size_sub_small n (B_len - 1)) by lia.
    rewrite size_add_small by lia.
    eapply wp_mono.
    + apply (sum_product_body n (n - (B_len - 1)) (B_len - 1) _ (A_len - 1));
        try lia; apply Hinv.
    + intros [] s' [Hmem Hacc].
      apply (sum_product_inv_step n (n - (B_len - 1)) (A_len - 1) 0 s);
        try lia; try done.
      by rewrite decide_False by lia. }
  intros [] s3 Hinv3.
  by replace (A_len - 1 + (B_len - 1) + 1) with (A_len + B_len - 1)
    in Hinv3 by lia.
Qed.
End Naive_AddTo_Sum_Product_correct.

(** ** Calls and their results *)

Lemma lookup_nat_Z (l1 l2 : list Z) (lo : Z) :
  (forall k, lo <= k -> l1 !! Z.to_nat k = l2 !! Z.to_nat k) ->
  forall k : nat, lo <= k -> l1 !! k = l2 !! k.
Proof. intros H k Hk. specialize (H k Hk). by rewrite Nat2Z.id in H. Qed.

Lemma Naive_Product_call (fuel : nat) (A B P : list Z) (A_len B_len : Z) :
  A_len = length A -> B_len = length B -> 1 <= A_len -> A_len <= B_len ->
  A_len + B_len - 1 <= length P -> length P <= SIZE_MAX ->
  B_len < fuel ->
  exists s, call (Naive_Product fuel A A_len B B_len) P = Done tt s /\
            product_inv A B P A_len B_len (A_len + B_len - 1) s.
Proof.
  intros HA HB H1 HAB HP Hmax Hfuel.
  destruct (wp_call _ _ _
    (Naive_Product_run A B P A_len B_len fuel HA HB H1 HAB HP Hmax Hfuel))
    as ([] & s & E & Hinv).
  eauto.
Qed.

Lemma Naive_AddTo_Sum_Product_call (fuel : nat) (A0 A1 B P : list Z)
    (A_len B_len : Z) :
  A_len = length A0 -> A_len = length A1 -> B_len = length B ->
  1 <= A_len -> A_len <= B_len ->
  A_len + B_len - 1 <= length P -> length P <= SIZE_MAX ->
  B_len < fuel ->
  exists s, call (Naive_AddTo_Sum_Product fuel A0 A1 A_len B B_len) P
              = Done tt s /\
            sum_product_inv A0 A1 B P A_len B_len (A_len + B_len - 1) s.
Proof.
  intros HA0 HA1 HB H1 HAB HP Hmax Hfuel.
  destruct (wp_call _ _ _
    (Naive_AddTo_Sum_Product_run A0 A1 B P A_len B_len fuel
       HA0 HA1 HB H1 HAB HP Hmax Hfuel))
    as ([] & s & E & Hinv).
  eauto.
Qed.

Lemma Scaled_AddTo_call (fuel : nat) (A P : list Z) (len c : Z) :
  len = length A -> len <= length P -> len <= SIZE_MAX -> len < fuel ->
  exists s, call (Scaled_AddTo fuel A len c) P = Done tt s /\
    length (mem_P s) = length P /\
    (forall k, 0 <= k < len ->
       mem_P s !! Z.to_nat k = Some (wrap_int (coeff P k + c * coeff A k))) /\
    (forall k, len <= k -> mem_P s !! Z.to_nat k = P !! Z.to_nat k) /\
    Forall (in_len len) (accesses s).
Proof.
  intros HA HP Hmax Hfuel.
  destruct (wp_call _ _ _ (Scaled_AddTo_run fuel A P len c HA HP Hmax Hfuel))
    as ([] & s & E & Hinv).
  eauto.
Qed.

Lemma product_coeff_leading (A B : list Z) :
  (1 <= length A)%nat -> (1 <= length B)%nat ->
  product_coeff A B (length A + length B - 2) =
  wrap_int (coeff A (length A - 1) * coeff B (length B - 1)).
Proof.
  intros HA HB. unfold product_coeff.
  rewrite (cauchy_band _ _ _ _ _ (length A - 1) (length A)) by lia.
  replace (Z.of_nat (length A)) with (length A - 1 + 1) at 2 by lia.
  rewrite sum_range_one. do 3 f_equal. lia.
Qed.

(** * Main results *)

(** ** Naive_Product *)

(** C2. For [A] of length [A_len >= 1] and [B] of length [B_len >= A_len],
    [Naive_Product] returns, and the buffer it leaves holds at every index
    [n] of [0 .. A_len + B_len - 2] the convolution sum of the [A[i] * B[j]]
    with [i + j = n], reduced to an [int], whatever the buffer held before;
    it writes these [A_len + B_len - 1] cells only: the buffer keeps its
    length and its cells from [A_len + B_len - 1] on. *)
Theorem Naive_Product_convolution
    (A B P : list Z) (A_len B_len : Z) (fuel : nat) :
  A_len = length A -> B_len = length B -> 1 <= A_len -> A_len <= B_len ->
  A_len + B_len - 1 <= length P -> length P <= SIZE_MAX ->
  B_len < fuel ->
  exists P',
    output (call (Naive_Product fuel A A_len B B_len) P) = Some P' /\
    length P' = length P /\
    (forall n, 0 <= n <= A_len + B_len - 2 ->
       P' !! Z.to_nat n =
       Some (wrap_int (cauchy (coeff A) (coeff B) A_len B_len n))) /\
    (forall k : nat, A_len + B_len - 1 <= k -> P' !! k = P !! k).
Proof.
  intros HA HB H1 HAB HP Hmax Hfuel.
  destruct (Naive_Product_call fuel A B P A_len B_len)
    as (s & E & Hlen & Hlo & Hup & _); try done.
  exists (mem_P s). rewrite E. split; [done|]. split; [done|]. split.
  - intros n Hn. rewrite Hlo by lia. unfold product_coeff. by subst.
  - by apply lookup_nat_Z.
Qed.

Lemma Naive_Product_convolution_witness :
  exists P',
    output (call (Naive_Product 4 [1; 2] 2 [3; 4; 5] 3) [7; 7; 7; 7; 7])
      = Some P' /\
    length P' = length [7; 7; 7; 7; 7] /\
    (forall n, 0 <= n <= 2 + 3 - 2 ->
       P' !! Z.to_nat n =
       Some (wrap_int (cauchy (coeff [1; 2]) (coeff [3; 4; 5]) 2 3 n))) /\
    (forall k : nat, 2 + 3 - 1 <= k -> P' !! k = [7; 7; 7; 7; 7] !! k).
Proof.
  apply (Naive_Product_convolution [1; 2] [3; 4; 5] [7; 7; 7; 7; 7] 2 3 4);
    first [reflexivity | vm_compute; congruence].
Defined.

(** C5. On [A = [1,2]] and [B = [3,4,5]], [Naive_Product] leaves
    [[3,10,13,10]] in the four-cell output buffer, whatever it held. *)
Theorem product_scenario (p0 p1 p2 p3 : Z) (fuel : nat) :
  (4 <= fuel)%nat ->
  output (call (Naive_Product fuel [1; 2] 2 [3; 4; 5] 3) [p0; p1; p2; p3])
  = Some [3; 10; 13; 10].
Proof.
  intros Hfuel. do 4 (destruct fuel as [|fuel]; [lia|]).
  vm_compute. reflexivity.
Qed.

Lemma product_scenario_witness :
  output (call (Naive_Product 4 [1; 2] 2 [3; 4; 5] 3) [0; 0; 0; 0])
  = Some [3; 10; 13; 10].
Proof. apply (product_scenario 0 0 0 0 4). lia. Defined.

(** C10. For [1 <= A_len <= B_len], two calls of [Naive_Product] on the
    same operands and on two output buffers of any initial contents return
    buffers that agree at every index of [0 .. A_len + B_len - 2]; in both
    runs every read of a cell of [P_coeffs] comes after a write to it. *)
Theorem Naive_Product_ignores_initial_P
    (A B P1 P2 : list Z) (A_len B_len : Z) (fuel : nat) :
  A_len = length A -> B_len = length B -> 1 <= A_len -> A_len <= B_len ->
  A_len + B_len - 1 <= length P1 -> length P1 <= SIZE_MAX ->
  A_len + B_len - 1 <= length P2 -> length P2 <= SIZE_MAX ->
  B_len < fuel ->
  exists s1 s2,
    call (Naive_Product fuel A A_len B B_len) P1 = Done tt s1 /\
    call (Naive_Product fuel A A_len B B_len) P2 = Done tt s2 /\
    (forall n, 0 <= n <= A_len + B_len - 2 ->
       mem_P s1 !! Z.to_nat n = mem_P s2 !! Z.to_nat n) /\
    written_before_read (accesses s1) /\
    written_before_read (accesses s2).
Proof.
  intros HA HB H1 HAB HP1 Hmax1 HP2 Hmax2 Hfuel.
  destruct (Naive_Product_call fuel A B P1 A_len B_len)
    as (s1 & E1 & _ & Hlo1 & _ & _ & Hw1); try done.
  destruct (Naive_Product_call fuel A B P2 A_len B_len)
    as (s2 & E2 & _ & Hlo2 & _ & _ & Hw2); try done.
  exists s1, s2. repeat split; try done.
  intros n Hn. by rewrite Hlo1, Hlo2 by lia.
Qed.

Lemma Naive_Product_ignores_initial_P_witness :
  exists s1 s2,
    call (Naive_Product 4 [1; 2] 2 [3; 4; 5] 3) [0; 0; 0; 0] = Done tt s1 /\
    call (Naive_Product 4 [1; 2] 2 [3; 4; 5] 3) [9; 8; 7; 6; 5] = Done tt s2 /\
    (forall n, 0 <= n <= 2 + 3 - 2 ->
       mem_P s1 !! Z.to_nat n = mem_P s2 !! Z.to_nat n) /\
    written_before_read (accesses s1) /\
    written_before_read (accesses s2).
Proof.
  apply (Naive_Product_ignores_initial_P
           [1; 2] [3; 4; 5] [0; 0; 0; 0] [9; 8; 7; 6; 5] 2 3 4);
    first [reflexivity | vm_compute; congruence].
Defined.

(** C6, as stated, fails: with the longer operand first the first loop reads
    [B_coeffs[1]] of a one-cell [B]; the call never returns a buffer, whereas
    the call with the operands swapped returns the product. *)
Lemma Naive_Product_longer_first_faults :
  call (Naive_Product 4 [1; 2] 2 [3] 1) [0; 0] = Fault /\
  ~ (exists fuel P',
       output (call (Naive_Product fuel [1; 2] 2 [3] 1) [0; 0]) = Some P') /\
  output (call (Naive_Product 4 [3] 1 [1; 2] 2) [0; 0]) = Some [3; 6].
Proof.
  split; [reflexivity|]. split; [|reflexivity].
  intros (fuel & P' & H). by destruct fuel as [|[|fuel]].
Qed.

(** C6, amended. For [1 <= A_len <= B_len], [Naive_Product] called with
    the shorter operand first leaves at every index of
    [0 .. A_len + B_len - 2] the Cauchy sum written with the operands in
    the other order; and when [A_len = B_len] the call with the operands
    swapped returns the very same buffer. *)
Theorem Naive_Product_symmetric
    (A B P : list Z) (A_len B_len : Z) (fuel : nat) :
  A_len = length A -> B_len = length B -> 1 <= A_len -> A_len <= B_len ->
  A_len + B_len - 1 <= length P -> length P <= SIZE_MAX ->
  B_len < fuel ->
  exists P',
    output (call (Naive_Product fuel A A_len B B_len) P) = Some P' /\
    (forall n, 0 <= n <= A_len + B_len - 2 ->
       P' !! Z.to_nat n =
       Some (wrap_int (cauchy (coeff B) (coeff A) B_len A_len n))) /\
    (A_len = B_len ->
     output (call (Naive_Product fuel B B_len A A_len) P) = Some P').
Proof.
  intros HA HB H1 HAB HP Hmax Hfuel.
  destruct (Naive_Product_call fuel A B P A_len B_len)
    as (s & E & Hlen & Hlo & Hup & _); try done.
  exists (mem_P s). rewrite E. split; [done|]. split.
  - intros n Hn. rewrite Hlo by lia. unfold product_coeff.
    rewrite cauchy_comm. by subst.
  - intros Heq.
    destruct (Naive_Product_call fuel B A P B_len A_len)
      as (s' & E' & Hlen' & Hlo' & Hup' & _); try done; try lia.
    rewrite E'. cbn [output]. f_equal. apply list_eq. intros i.
    destruct (decide (i < A_len + B_len - 1)) as [Hi|Hi].
    + specialize (Hlo i). specialize (Hlo' i).
      rewrite Nat2Z.id in Hlo, Hlo'. rewrite Hlo, Hlo' by lia.
      unfold product_coeff. by rewrite cauchy_comm.
    + specialize (Hup i). specialize (Hup' i).
      rewrite Nat2Z.id in Hup, Hup'. rewrite Hup, Hup' by lia. done.
Qed.

Lemma Naive_Product_symmetric_witness :
  exists P',
    output (call (Naive_Product 3 [1; 2] 2 [3; 4] 2) [0; 0; 0]) = Some P' /\
    (forall n, 0 <= n <= 2 + 2 - 2 ->
       P' !! Z.to_nat n =
       Some (wrap_int (cauchy (coeff [3; 4]) (coeff [1; 2]) 2 2 n))) /\
    (2 = 2 ->
     output (call (Naive_Product 3 [3; 4] 2 [1; 2] 2) [0; 0; 0]) = Some P').
Proof.
  apply (Naive_Product_symmetric [1; 2] [3; 4] [0; 0; 0] 2 2 3);
    first [reflexivity | vm_compute; congruence].
Defined.

(** C7, as stated, fails: the leading coefficients [65536] and [65536] are
    nonzero, yet their product [2 ^ 32] wraps to the [int] zero. *)
Lemma Naive_Product_leading_wraps_to_zero :
  coeff [1; 65536] 1 <> 0 /\
  output (call (Naive_Product 3 [1; 65536] 2 [1; 65536] 2) [7; 7; 7])
  = Some [1; 131072; 0].
Proof. split; [discriminate|reflexivity]. Qed.

(** C7, amended. For [1 <= A_len <= B_len], the last coefficient
    [P[A_len + B_len - 2]] left by [Naive_Product] is the product of the
    two leading coefficients reduced to an [int]: it is zero exactly when
    the exact product is a multiple of [2 ^ 32], and so it is nonzero when
    both leading coefficients are nonzero and their exact product fits in
    an [int]. *)
Theorem Naive_Product_leading_coeff
    (A B P : list Z) (A_len B_len : Z) (fuel : nat) :
  A_len = length A -> B_len = length B -> 1 <= A_len -> A_len <= B_len ->
  A_len + B_len - 1 <= length P -> length P <= SIZE_MAX ->
  B_len < fuel ->
  let lead := coeff A (A_len - 1) * coeff B (B_len - 1) in
  exists P',
    output (call (Naive_Product fuel A A_len B B_len) P) = Some P' /\
    P' !! Z.to_nat (A_len + B_len - 2) = Some (wrap_int lead) /\
    (wrap_int lead = 0 <-> lead mod 2 ^ INT_BITS = 0) /\
    (coeff A (A_len - 1) <> 0 -> coeff B (B_len - 1) <> 0 ->
     INT_MIN <= lead <= INT_MAX -> wrap_int lead <> 0).
Proof.
  intros HA HB H1 HAB HP Hmax Hfuel lead.
  destruct (Naive_Product_call fuel A B P A_len B_len)
    as (s & E & Hlen & Hlo & Hup & _); try done.
  exists (mem_P s). rewrite E. split; [done|]. split; [|split].
  - rewrite Hlo by lia. f_equal. subst A_len B_len.
    apply product_coeff_leading; lia.
  - apply wrap_int_zero_iff.
  - intros Ha Hb Hfit. rewrite wrap_int_small by done. unfold lead. lia.
Qed.

Lemma Naive_Product_leading_coeff_witness :
  let lead := coeff [1; 2] (2 - 1) * coeff [3; 4; 5] (3 - 1) in
  exists P',
    output (call (Naive_Product 4 [1; 2] 2 [3; 4; 5] 3) [0; 0; 0; 0])
      = Some P' /\
    P' !! Z.to_nat (2 + 3 - 2) = Some (wrap_int lead) /\
    (wrap_int lead = 0 <-> lead mod 2 ^ INT_BITS = 0) /\
    (coeff [1; 2] (2 - 1) <> 0 -> coeff [3; 4; 5] (3 - 1) <> 0 ->
     INT_MIN <= lead <= INT_MAX -> wrap_int lead <> 0).
Proof.
  apply (Naive_Product_leading_coeff [1; 2] [3; 4; 5] [0; 0; 0; 0] 2 3 4);
    first [reflexivity | vm_compute; congruence].
Defined.

(** ** Memory safety of the two products *)

(** C3. For [1 <= A_len <= B_len], [Naive_Product] and
    [Naive_AddTo_Sum_Product] return without touching a cell outside the
    arrays: every read of [A] (or [A0], [A1]) is at an index of
    [0 .. A_len - 1], every read of [B] at an index of [0 .. B_len - 1],
    every read or write of [P] at an index of [0 .. A_len + B_len - 2]; a
    larger output buffer keeps its length and its cells from
    [A_len + B_len - 1] on. *)
Theorem products_access_in_range
    (A A0 A1 B P : list Z) (A_len B_len : Z) (fuel : nat) :
  A_len = length A -> A_len = length A0 -> A_len = length A1 ->
  B_len = length B -> 1 <= A_len -> A_len <= B_len ->
  A_len + B_len - 1 <= length P -> length P <= SIZE_MAX ->
  B_len < fuel ->
  (exists s,
     call (Naive_Product fuel A A_len B B_len) P = Done tt s /\
     Forall (in_range A_len B_len) (accesses s) /\
     length (mem_P s) = length P /\
     (forall k : nat, A_len + B_len - 1 <= k -> mem_P s !! k = P !! k)) /\
  (exists s,
     call (Naive_AddTo_Sum_Product fuel A0 A1 A_len B B_len) P = Done tt s /\
     Forall (in_range A_len B_len) (accesses s) /\
     length (mem_P s) = length P /\
     (forall k : nat, A_len + B_len - 1 <= k -> mem_P s !! k = P !! k)).
Proof.
  intros HA HA0 HA1 HB H1 HAB HP Hmax Hfuel. split.
  - destruct (Naive_Product_call fuel A B P A_len B_len)
      as (s & E & Hlen & _ & Hup & Hacc & _); try done.
    exists s. repeat split; try done. by apply lookup_nat_Z.
  - destruct (Naive_AddTo_Sum_Product_call fuel A0 A1 B P A_len B_len)
      as (s & E & Hlen & _ & Hup & Hacc); try done.
    exists s. repeat split; try done. by apply lookup_nat_Z.
Qed.

Lemma products_access_in_range_witness :
  (exists s,
     call (Naive_Product 4 [1; 2] 2 [3; 4; 5] 3) [9; 9; 9; 9; 9] = Done tt s /\
     Forall (in_range 2 3) (accesses s) /\
     length (mem_P s) = length [9; 9; 9; 9; 9] /\
     (forall k : nat, 2 + 3 - 1 <= k -> mem_P s !! k = [9; 9; 9; 9; 9] !! k)) /\
  (exists s,
     call (Naive_AddTo_Sum_Product 4 [1; 1] [2; 0] 2 [3; 4; 5] 3)
          [9; 9; 9; 9; 9] = Done tt s /\
     Forall (in_range 2 3) (accesses s) /\
     length (mem_P s) = length [9; 9; 9; 9; 9] /\
     (forall k : nat, 2 + 3 - 1 <= k -> mem_P s !! k = [9; 9; 9; 9; 9] !! k)).
Proof.
  apply (products_access_in_range
           [1; 2] [1; 1] [2; 0] [3; 4; 5] [9; 9; 9; 9; 9] 2 3 4);
    first [reflexivity | vm_compute; congruence].
Defined.

(** ** Naive_AddTo_Sum_Product *)

(** C1 fails on the code. On [A0 = [1,1]], [A1 = [0,0]], [B = [1,1,1]] and
    an output buffer holding [[10,10,10,10]], the contract asks for
    [[11,12,12,11]]; the code returns [[11,12,2,1]]: the second and the
    third loop assign the first term of their cells instead of adding it. *)
Theorem Naive_AddTo_Sum_Product_overwrites (fuel : nat) :
  (4 <= fuel)%nat ->
  output (call (Naive_AddTo_Sum_Product fuel [1; 1] [0; 0] 2 [1; 1; 1] 3)
               [10; 10; 10; 10])
  = Some [11; 12; 2; 1] /\
  sum_product_expected [1; 1] [0; 0] [1; 1; 1] [10; 10; 10; 10]
    <$> [0; 1; 2; 3]
  = [11; 12; 12; 11].
Proof.
  intros Hfuel. do 4 (destruct fuel as [|fuel]; [lia|]).
  split; vm_compute; reflexivity.
Qed.

Lemma Naive_AddTo_Sum_Product_overwrites_witness :
  output (call (Naive_AddTo_Sum_Product 4 [1; 1] [0; 0] 2 [1; 1; 1] 3)
               [10; 10; 10; 10])
  = Some [11; 12; 2; 1] /\
  sum_product_expected [1; 1] [0; 0] [1; 1; 1] [10; 10; 10; 10]
    <$> [0; 1; 2; 3]
  = [11; 12; 12; 11].
Proof. apply (Naive_AddTo_Sum_Product_overwrites 4). lia. Defined.

(** C4, as stated, fails: the call does not leave [[3,3,3,3]]. *)
Lemma sum_product_scenario_not_3333 :
  output (call (Naive_AddTo_Sum_Product 4 [1; 1] [2; 0] 2 [1; 0; 1] 3)
               [0; 0; 0; 0])
  <> Some [3; 3; 3; 3].
Proof. vm_compute. discriminate. Qed.

(** C4, amended. On [A0 = [1,1]], [A1 = [2,0]], [B = [1,0,1]] and an output
    buffer holding [[0,0,0,0]], [Naive_AddTo_Sum_Product] leaves
    [[3,1,3,1]], the coefficients of [(3 + x) * (1 + x^2)]. *)
Theorem sum_product_scenario (fuel : nat) :
  (4 <= fuel)%nat ->
  output (call (Naive_AddTo_Sum_Product fuel [1; 1] [2; 0] 2 [1; 0; 1] 3)
               [0; 0; 0; 0])
  = Some [3; 1; 3; 1].
Proof.
  intros Hfuel. do 4 (destruct fuel as [|fuel]; [lia|]).
  vm_compute. reflexivity.
Qed.

Lemma sum_product_scenario_witness :
  output (call (Naive_AddTo_Sum_Product 4 [1; 1] [2; 0] 2 [1; 0; 1] 3)
               [0; 0; 0; 0])
  = Some [3; 1; 3; 1].
Proof. apply (sum_product_scenario 4). lia. Defined.

(** ** Scaled_AddTo *)

(** C8. For [A] of length [len] and [P] of length at least [len],
    [Scaled_AddTo] returns and leaves [P[n] + c * A[n]], as an [int], at
    every index [n] of [0 .. len - 1]; the buffer keeps its length and
    every other cell; for [len = 0] the call touches no cell and returns
    the buffer as it was. *)
Theorem Scaled_AddTo_adds (A P : list Z) (len c : Z) (fuel : nat) :
  len = length A -> len <= length P -> len <= SIZE_MAX -> len < fuel ->
  exists s,
    call (Scaled_AddTo fuel A len c) P = Done tt s /\
    length (mem_P s) = length P /\
    (forall n, 0 <= n < len ->
       mem_P s !! Z.to_nat n = Some (wrap_int (coeff P n + c * coeff A n))) /\
    (forall k : nat, len <= k -> mem_P s !! k = P !! k) /\
    (len = 0 -> mem_P s = P /\ accesses s = []).
Proof.
  intros HA HP Hmax Hfuel.
  destruct (Scaled_AddTo_call fuel A P len c)
    as (s & E & Hlen & Hlo & Hup & Hacc); try done.
  exists s. repeat split; try done.
  - by apply lookup_nat_Z.
  - apply list_eq. intros i. apply (lookup_nat_Z _ _ len); [done|lia].
  - destruct (accesses s) as [|e tr]; [done|].
    apply Forall_cons_1 in Hacc as [He _].
    destruct e as [[] i|[] i]; simpl in He; lia.
Qed.

Lemma Scaled_AddTo_adds_witness :
  exists s,
    call (Scaled_AddTo 3 [1; 2] 2 5) [10; 20; 30] = Done tt s /\
    length (mem_P s) = length [10; 20; 30] /\
    (forall n, 0 <= n < 2 ->
       mem_P s !! Z.to_nat n =
       Some (wrap_int (coeff [10; 20; 30] n + 5 * coeff [1; 2] n))) /\
    (forall k : nat, 2 <= k -> mem_P s !! k = [10; 20; 30] !! k) /\
    (2 = 0 -> mem_P s = [10; 20; 30] /\ accesses s = []).
Proof.
  apply (Scaled_AddTo_adds [1; 2] [10; 20; 30] 2 5 3);
    first [reflexivity | vm_compute; congruence].
Defined.

(** C9, amended.  For an input array [A] that does not overlap the output
    buffer, [Scaled_AddTo] with the scalar [c1] followed by [Scaled_AddTo]
    with the scalar [c2] leaves the buffer that the single call with the
    [int] sum [c1 + c2] leaves from the same initial buffer. *)
Theorem Scaled_AddTo_linear (A P : list Z) (len c1 c2 : Z) (fuel : nat) :
  len = length A -> len <= length P -> len <= SIZE_MAX -> len < fuel ->
  exists P1 P2,
    output (call (Scaled_AddTo fuel A len c1) P) = Some P1 /\
    output (call (Scaled_AddTo fuel A len c2) P1) = Some P2 /\
    output (call (Scaled_AddTo fuel A len (int_add c1 c2)) P) = Some P2.
Proof.
  intros HA HP Hmax Hfuel.
  destruct (Scaled_AddTo_call fuel A P len c1)
    as (s1 & E1 & Hlen1 & Hlo1 & Hup1 & _); try done.
  set (P1 := mem_P s1) in *.
  destruct (Scaled_AddTo_call fuel A P1 len c2)
    as (s2 & E2 & Hlen2 & Hlo2 & Hup2 & _); try done; [lia|].
  destruct (Scaled_AddTo_call fuel A P len (int_add c1 c2))
    as (s3 & E3 & Hlen3 & Hlo3 & Hup3 & _); try done.
  exists P1, (mem_P s2). rewrite E1, E2, E3. split; [done|]. split; [done|].
  cbn [output]. f_equal. apply list_eq. intros i.
  destruct (decide (i < len)) as [Hi|Hi].
  - specialize (Hlo1 i). specialize (Hlo2 i). specialize (Hlo3 i).
    rewrite Nat2Z.id in Hlo1, Hlo2, Hlo3.
    rewrite Hlo2, Hlo3 by lia. f_equal.
    assert (coeff P1 i = wrap_int (coeff P i + c1 * coeff A i)) as ->.
    { unfold coeff at 1. by rewrite Nat2Z.id, Hlo1 by lia. }
    rewrite wrap_int_add_l. unfold int_add.
    rewrite <- (wrap_int_add_r (coeff P i)), wrap_int_mul_l, wrap_int_add_r.
    f_equal. ring.
  - specialize (Hup1 i). specialize (Hup2 i). specialize (Hup3 i).
    rewrite Nat2Z.id in Hup1, Hup2, Hup3.
    rewrite Hup3, Hup2, Hup1 by lia. done.
Qed.

Lemma Scaled_AddTo_linear_witness :
  exists P1 P2,
    output (call (Scaled_AddTo 3 [1; 2] 2 2147483647) [10; 20; 30])
      = Some P1 /\
    output (call (Scaled_AddTo 3 [1; 2] 2 5) P1) = Some P2 /\
    output (call (Scaled_AddTo 3 [1; 2] 2 (int_add 2147483647 5))
                 [10; 20; 30]) = Some P2.
Proof.
  apply (Scaled_AddTo_linear [1; 2] [10; 20; 30] 2 2147483647 5 3);
    first [reflexivity | vm_compute; congruence].
Defined.

(** * Further properties of the kernels *)

(** ** Rules for runs that may fault *)

Lemma wfp_ret {X} (x : X) Q s : Q x s -> wfp (ret x) Q s.
Proof. done. Qed.

Lemma wfp_bind {X Y} (c : M X) (k : X -> M Y) Q s :
  wfp c (fun x s' => wfp (k x) Q s') s -> wfp (bind c k) Q s.
Proof. unfold wfp, bind. by destruct (c s). Qed.

Lemma wfp_mono {X} (c : M X) (Q Q' : X -> state -> Prop) s :
  wfp c Q s -> (forall x s', Q x s' -> Q' x s') -> wfp c Q' s.
Proof. unfold wfp. destruct (c s); auto. Qed.

Lemma wfp_bind_fault {X Y} (c : M X) (k : X -> M Y) Q s :
  wfp c (fun _ _ => False) s -> wfp (bind c k) Q s.
Proof. intros H. apply wfp_bind. by eapply wfp_mono. Qed.

Lemma wfp_fault {X} (c : M X) s : wfp c (fun _ _ => False) s -> c s = Fault.
Proof. unfold wfp. by destruct (c s). Qed.

Lemma wfp_load b arr i Q s :
  (forall v, arr !! Z.to_nat i = Some v ->
             Q v (mkState (mem_P s) (Read b i :: accesses s))) ->
  wfp (load b arr i) Q s.
Proof. intros H. unfold wfp, load. destruct (arr !! _); [by apply H|done]. Qed.

Lemma wfp_store_P i v (Q : unit -> state -> Prop) s :
  ((Z.to_nat i < length (mem_P s))%nat ->
   Q tt (mkState (<[Z.to_nat i := v]> (mem_P s))
                 (Write P_coeffs i :: accesses s))) ->
  wfp (store_P i v) Q s.
Proof. intros H. unfold wfp, store_P. case_decide; [by apply H|done]. Qed.

Lemma wfp_addto_P i v (Q : unit -> state -> Prop) s :
  (forall p, mem_P s !! Z.to_nat i = Some p ->
     Q tt (mkState (<[Z.to_nat i := int_add p v]> (mem_P s))
                   (Write P_coeffs i :: Read P_coeffs i :: accesses s))) ->
  wfp (addto_P i v) Q s.
Proof.
  intros H. unfold wfp, addto_P, bind, load_P, store_P.
  destruct (mem_P s !! Z.to_nat i) as [p|] eqn:E; [|done].
  cbn [mem_P record]. rewrite decide_True by by eapply lookup_lt_Some.
  by apply H.
Qed.

(** A loop whose bound is below [SIZE_MAX] does not run out of fuel when
    the fuel covers its iterations and no iteration does. *)
Lemma wfp_for_le (I : Z -> state -> Prop) body hi (fuel : nat) :
  hi < SIZE_MAX ->
  forall lo s,
    0 <= lo <= hi + 1 -> hi + 1 - lo < fuel ->
    I lo s ->
    (forall n s', lo <= n <= hi -> I n s' ->
                  wfp (body n) (fun _ => I (n + 1)) s') ->
    wfp (for_le fuel lo hi body) (fun _ => I (hi + 1)) s.
Proof.
  intros Hhi. induction fuel as [|fuel IH]; intros lo s Hlo Hfuel HI Hbody.
  - lia.
  - cbn [for_le]. case_decide as Hle.
    + apply wfp_bind. eapply wfp_mono; [apply Hbody; [lia|done]|].
      intros [] s' HI'. cbv beta.
      rewrite one_eq, size_add_small by lia.
      apply IH; [lia|lia|done|]. intros n s'' Hn. apply Hbody. lia.
    + apply wfp_ret. by replace (hi + 1) with lo by lia.
Qed.

(** A loop faults when the iteration [k] does, the fuel reaches it and no
    earlier iteration runs out of fuel. *)
Lemma wfp_for_le_fault (I : Z -> state -> Prop) body k hi (fuel : nat) :
  k <= hi -> k <= SIZE_MAX ->
  forall lo s,
    0 <= lo <= k -> k - lo < fuel ->
    I lo s ->
    (forall n s', lo <= n < k -> I n s' ->
                  wfp (body n) (fun _ => I (n + 1)) s') ->
    (forall s', I k s' -> wfp (body k) (fun _ _ => False) s') ->
    wfp (for_le fuel lo hi body) (fun _ _ => False) s.
Proof.
  intros Hk Hmax.
  induction fuel as [|fuel IH]; intros lo s Hlo Hfuel HI Hbody Hfault.
  - lia.
  - cbn [for_le]. rewrite decide_True by lia. apply wfp_bind.
    destruct (decide (lo = k)) as [->|Hne].
    + eapply wfp_mono; [by apply Hfault|done].
    + eapply wfp_mono; [apply Hbody; [lia|done]|].
      intros [] s' HI'. cbv beta.
      rewrite one_eq, size_add_small by lia.
      apply IH; [lia|lia|done| |done]. intros n s'' Hn. apply Hbody. lia.
Qed.

Lemma wfp_for_lt (I : Z -> state -> Prop) body hi (fuel : nat) :
  hi <= SIZE_MAX ->
  forall lo s,
    0 <= lo <= hi -> hi - lo < fuel ->
    I lo s ->
    (forall n s', lo <= n < hi -> I n s' ->
                  wfp (body n) (fun _ => I (n + 1)) s') ->
    wfp (for_lt fuel lo hi body) (fun _ => I hi) s.
Proof.
  intros Hhi. induction fuel as [|fuel IH]; intros lo s Hlo Hfuel HI Hbody.
  - lia.
  - cbn [for_lt]. case_decide as Hlt.
    + apply wfp_bind. eapply wfp_mono; [apply Hbody; [lia|done]|].
      intros [] s' HI'. cbv beta.
      rewrite one_eq, size_add_small by lia.
      apply IH; [lia|lia|done|]. intros n s'' Hn. apply Hbody. lia.
    + apply wfp_ret. by replace hi with lo by lia.
Qed.

Lemma wfp_for_lt_fault (I : Z -> state -> Prop) body k hi (fuel : nat) :
  k < hi -> k <= SIZE_MAX ->
  forall lo s,
    0 <= lo <= k -> k - lo < fuel ->
    I lo s ->
    (forall n s', lo <= n < k -> I n s' ->
                  wfp (body n) (fun _ => I (n + 1)) s') ->
    (forall s', I k s' -> wfp (body k) (fun _ _ => False) s') ->
    wfp (for_lt fuel lo hi body) (fun _ _ => False) s.
Proof.
  intros Hk Hmax.
  induction fuel as [|fuel IH]; intros lo s Hlo Hfuel HI Hbody Hfault.
  - lia.
  - cbn [for_lt]. rewrite decide_True by lia. apply wfp_bind.
    destruct (decide (lo = k)) as [->|Hne].
    + eapply wfp_mono; [by apply Hfault|done].
    + eapply wfp_mono; [apply Hbody; [lia|done]|].
      intros [] s' HI'. cbv beta.
      rewrite one_eq, size_add_small by lia.
      apply IH; [lia|lia|done| |done]. intros n s'' Hn. apply Hbody. lia.
Qed.

(** ** Scaled_AddTo outside its contract *)

(** X1. [Scaled_AddTo] called with a [len] that exceeds the length of [A]
    or of [P] faults: it reads or writes the first cell past the shorter
    array. *)
Theorem Scaled_AddTo_faults (A P : list Z) (len c : Z) (fuel : nat) :
  len <= SIZE_MAX -> len <= fuel ->
  length A < len \/ length P < len ->
  call (Scaled_AddTo fuel A len c) P = Fault.
Proof.
  intros Hmax Hfuel Hshort. unfold call. apply wfp_fault.
  unfold Scaled_AddTo. rewrite zero_eq.
  set (k := Z.min (length A) (length P)).
  apply (wfp_for_lt_fault
           (fun _ s => length (mem_P s) = length P) _ k); try lia; [done| |].
  - intros n s Hn Hlen. apply wfp_bind, wfp_load. intros a _.
    apply wfp_addto_P. intros p _. cbn [mem_P]. by rewrite length_insert.
  - intros s Hlen. apply wfp_bind, wfp_load. intros a Ha.
    apply lookup_lt_Some in Ha.
    apply wfp_addto_P. intros p Hp. cbn [mem_P] in Hp.
    apply lookup_lt_Some in Hp. lia.
Qed.

Lemma Scaled_AddTo_faults_witness :
  call (Scaled_AddTo 3 [1; 2; 3] 3 5) [10; 20] = Fault.
Proof.
  apply (Scaled_AddTo_faults [1; 2; 3] [10; 20] 3 5 3);
    first [vm_compute; congruence | right; vm_compute; reflexivity].
Defined.

(** ** Naive_Product outside its contract *)

Lemma size_sub_0_1 : size_sub 0 one = SIZE_MAX.
Proof. reflexivity. Qed.

Section Naive_Product_faults.
Variables (A B : list Z) (fuel : nat) (L : nat).

Local Abbreviation keeps := (fun s : state => length (mem_P s) = L).

Lemma product_inner_keeps n lo hi s :
  hi < SIZE_MAX -> 0 <= lo <= hi + 1 -> hi + 1 - lo < fuel ->
  keeps s ->
  wfp (for_le fuel lo hi (fun m =>
         let* a := load A_coeffs A m in
         let* b := load B_coeffs B (size_sub n m) in
         addto_P n (int_mul a b)))
      (fun _ => keeps) s.
Proof.
  intros Hhi Hlo Hfuel Hs.
  apply (wfp_for_le (fun _ => keeps)); [done..|].
  intros m s' _ Hs'. apply wfp_bind, wfp_load. intros a _.
  apply wfp_bind, wfp_load. intros b _.
  apply wfp_addto_P. intros p _. cbn [mem_P]. by rewrite length_insert.
Qed.

Lemma product_body_keeps n m0 bidx lo hi s :
  hi < SIZE_MAX -> 0 <= lo <= hi + 1 -> hi + 1 - lo < fuel ->
  keeps s ->
  wfp (let* a := load A_coeffs A m0 in
       let* b := load B_coeffs B bidx in
       store_P n (int_mul a b) ;;
       for_le fuel lo hi (fun m =>
         let* a := load A_coeffs A m in
         let* b := load B_coeffs B (size_sub n m) in
         addto_P n (int_mul a b)))
      (fun _ => keeps) s.
Proof.
  intros Hhi Hlo Hfuel Hs.
  apply wfp_bind, wfp_load. intros a _.
  apply wfp_bind, wfp_load. intros b _.
  apply wfp_bind, wfp_store_P. intros _.
  apply product_inner_keeps; [done..|]. cbn [mem_P]. by rewrite length_insert.
Qed.

(** The assignment [P_coeffs[n] = ...] faults past the end of the buffer. *)
Lemma product_body_faults_P n m0 bidx lo hi s :
  0 <= n -> L <= n -> keeps s ->
  wfp (let* a := load A_coeffs A m0 in
       let* b := load B_coeffs B bidx in
       store_P n (int_mul a b) ;;
       for_le fuel lo hi (fun m =>
         let* a := load A_coeffs A m in
         let* b := load B_coeffs B (size_sub n m) in
         addto_P n (int_mul a b)))
      (fun _ _ => False) s.
Proof.
  intros Hn HL Hs.
  apply wfp_bind, wfp_load. intros a _.
  apply wfp_bind, wfp_load. intros b _.
  apply wfp_bind, wfp_store_P. cbn [mem_P]. intros Hlt.
  cbv beta in Hs. lia.
Qed.

(** The read [B_coeffs[bidx]] faults past the end of [B]. *)
Lemma product_body_faults_B n m0 bidx lo hi s :
  0 <= bidx -> length B <= bidx ->
  wfp (let* a := load A_coeffs A m0 in
       let* b := load B_coeffs B bidx in
       store_P n (int_mul a b) ;;
       for_le fuel lo hi (fun m =>
         let* a := load A_coeffs A m in
         let* b := load B_coeffs B (size_sub n m) in
         addto_P n (int_mul a b)))
      (fun _ _ => False) s.
Proof.
  intros Hb HB.
  apply wfp_bind, wfp_load. intros a _.
  apply wfp_bind, wfp_load. intros b Hb'.
  apply lookup_lt_Some in Hb'. lia.
Qed.
End Naive_Product_faults.

(** X2. [Naive_Product] called with [1 <= A_len <= B_len] on an output
    buffer of fewer than [A_len + B_len - 1] cells faults, whatever the
    operands: it writes the first cell past the buffer. *)
Theorem Naive_Product_short_output_faults
    (A B P : list Z) (A_len B_len : Z) (fuel : nat) :
  1 <= A_len -> A_len <= B_len -> A_len + B_len - 1 <= SIZE_MAX ->
  B_len < fuel ->
  length P < A_len + B_len - 1 ->
  call (Naive_Product fuel A A_len B B_len) P = Fault.
Proof.
  intros H1 HAB Hmax Hfuel HP. unfold call. apply wfp_fault.
  unfold Naive_Product. cbv zeta. rewrite one_eq, zero_eq.
  rewrite (size_sub_small A_len 1), (size_sub_small B_len 1) by lia.
  rewrite !size_add_small by lia.
  set (L := length P). set (keeps := fun s : state => length (mem_P s) = L).
  assert (Hbody1 : forall n s, 0 <= n <= A_len - 1 -> keeps s ->
    wfp (let* a := load A_coeffs A 0 in
         let* b := load B_coeffs B n in
         store_P n (int_mul a b) ;;
         for_le fuel 1 n (fun m =>
           let* a := load A_coeffs A m in
           let* b := load B_coeffs B (size_sub n m) in
           addto_P n (int_mul a b))) (fun _ => keeps) s).
  { intros n s Hn Hs. apply (product_body_keeps A B fuel L); [lia..|done]. }
  assert (Hbody2 : forall n s, A_len <= n <= B_len - 1 -> keeps s ->
    wfp (let* a := load A_coeffs A 0 in
         let* b := load B_coeffs B n in
         store_P n (int_mul a b) ;;
         for_le fuel 1 (A_len - 1) (fun m =>
           let* a := load A_coeffs A m in
           let* b := load B_coeffs B (size_sub n m) in
           addto_P n (int_mul a b))) (fun _ => keeps) s).
  { intros n s Hn Hs. apply (product_body_keeps A B fuel L); [lia..|done]. }
  destruct (decide (L <= A_len - 1)) as [Hr1|Hr1].
  { apply wfp_bind_fault.
    apply (wfp_for_le_fault (fun _ => keeps) _ L); try lia; try done.
    - intros n s Hn Hs. apply Hbody1; [lia|done].
    - intros s Hs. by apply (product_body_faults_P A B fuel L); try lia. }
  apply wfp_bind. eapply wfp_mono.
  { apply (wfp_for_le (fun _ => keeps)); try lia; done. }
  intros [] s1 Hs1.
  destruct (decide (L <= B_len - 1)) as [Hr2|Hr2].
  { apply wfp_bind_fault.
    apply (wfp_for_le_fault (fun _ => keeps) _ L); try lia; try done.
    - intros n s Hn Hs. apply Hbody2; [lia|done].
    - intros s Hs. by apply (product_body_faults_P A B fuel L); try lia. }
  apply wfp_bind. eapply wfp_mono.
  { apply (wfp_for_le (fun _ => keeps)); try lia; try done.
    intros n s Hn Hs. apply Hbody2; [lia|done]. }
  intros [] s2 Hs2.
  apply (wfp_for_le_fault (fun _ => keeps) _ L); try lia; try done.
  - intros n s Hn Hs.
    rewrite (size_sub_small n (B_len - 1)) by lia.
    rewrite size_add_small by lia.
    apply (product_body_keeps A B fuel L); [lia..|done].
  - intros s Hs. by apply (product_body_faults_P A B fuel L); try lia.
Qed.

Lemma Naive_Product_short_output_faults_witness :
  call (Naive_Product 4 [1; 2] 2 [3; 4; 5] 3) [0; 0; 0] = Fault.
Proof.
  apply (Naive_Product_short_output_faults [1; 2] [3; 4; 5] [0; 0; 0] 2 3 4);
    vm_compute; first [reflexivity | congruence].
Defined.

(** X3. [Naive_Product] called on operands of lengths [A_len] and [B_len]
    that do not satisfy [1 <= A_len <= B_len] faults, whatever the output
    buffer: with [A_len = 0] it reads [A_coeffs[0]], with [A_len > B_len]
    its first loop reads [B_coeffs[B_len]] (or writes past a shorter
    output buffer before). *)
Theorem Naive_Product_bad_lengths_faults
    (A B P : list Z) (A_len B_len : Z) (fuel : nat) :
  A_len = length A -> B_len = length B -> A_len <= SIZE_MAX ->
  B_len < fuel ->
  ~ (1 <= A_len <= B_len) ->
  call (Naive_Product fuel A A_len B B_len) P = Fault.
Proof.
  intros HA HB Hmax Hfuel Hbad. unfold call. apply wfp_fault.
  unfold Naive_Product. cbv zeta. rewrite zero_eq.
  apply wfp_bind_fault.
  destruct (decide (A_len = 0)) as [H0|H0].
  - rewrite H0, size_sub_0_1.
    apply (wfp_for_le_fault (fun _ _ => True) _ 0); try lia; try done.
    intros s _. apply wfp_bind, wfp_load. intros a Ha.
    apply lookup_lt_Some in Ha. lia.
  - rewrite one_eq, (size_sub_small A_len 1) by lia.
    set (L := length P).
    destruct (decide (L < B_len)) as [HL|HL].
    + apply (wfp_for_le_fault (fun _ s => length (mem_P s) = L) _ L);
        try lia; try done.
      * intros n s Hn Hs. apply (product_body_keeps A B fuel L); [lia..|done].
      * intros s Hs. by apply (product_body_faults_P A B fuel L); try lia.
    + apply (wfp_for_le_fault (fun _ s => length (mem_P s) = L) _ B_len);
        try lia; try done.
      * intros n s Hn Hs. apply (product_body_keeps A B fuel L); [lia..|done].
      * intros s Hs. apply (product_body_faults_B A B fuel); lia.
Qed.

Lemma Naive_Product_bad_lengths_faults_witness :
  call (Naive_Product 4 [1; 2; 3] 3 [4; 5] 2) [0; 0; 0; 0] = Fault.
Proof.
  apply (Naive_Product_bad_lengths_faults [1; 2; 3] [4; 5] [0; 0; 0; 0] 3 2 4);
    vm_compute; first [reflexivity | congruence | intros [_ H]; by apply H].
Defined.

(** ** Naive_AddTo_Sum_Product outside its contract *)

Section Naive_AddTo_Sum_Product_faults.
Variables (A0 A1 B : list Z) (fuel : nat) (L : nat).

Local Abbreviation keeps := (fun s : state => length (mem_P s) = L).

Lemma sum_product_inner_keeps n lo hi s :
  hi < SIZE_MAX -> 0 <= lo <= hi + 1 -> hi + 1 - lo < fuel ->
  keeps s ->
  wfp (for_le fuel lo hi (fun m =>
         let* a0 := load A0_coeffs A0 m in
         let* a1 := load A1_coeffs A1 m in
         let* b := load B_coeffs B (size_sub n m) in
         addto_P n (int_mul (int_add a0 a1) b)))
      (fun _ => keeps) s.
Proof.
  intros Hhi Hlo Hfuel Hs.
  apply (wfp_for_le (fun _ => keeps)); [done..|].
  intros m s' _ Hs'. apply wfp_bind, wfp_load. intros a0 _.
  apply wfp_bind, wfp_load. intros a1 _.
  apply wfp_bind, wfp_load. intros b _.
  apply wfp_addto_P. intros p _. cbn [mem_P]. by rewrite length_insert.
Qed.

(** The first iteration of an inner loop faults when [P_coeffs[n]] is past
    the end of the buffer, or [A0_coeffs[lo]] past the end of [A0], or
    [B_coeffs[n - lo]] past the end of [B]. *)
Lemma sum_product_inner_faults n lo hi s :
  0 <= lo <= hi -> hi <= SIZE_MAX -> 0 <= n - lo <= SIZE_MAX ->
  0 < fuel -> keeps s ->
  L <= n \/ length A0 <= lo \/ length B <= n - lo ->
  wfp (for_le fuel lo hi (fun m =>
         let* a0 := load A0_coeffs A0 m in
         let* a1 := load A1_coeffs A1 m in
         let* b := load B_coeffs B (size_sub n m) in
         addto_P n (int_mul (int_add a0 a1) b)))
      (fun _ _ => False) s.
Proof.
  intros Hlo Hhi Hn Hfuel Hs Hbad.
  apply (wfp_for_le_fault (fun _ => keeps) _ lo); try lia; try done.
  intros s' Hs'. apply wfp_bind, wfp_load. intros a0 Ha0.
  apply wfp_bind, wfp_load. intros a1 _.
  rewrite size_sub_small by lia.
  apply wfp_bind, wfp_load. intros b Hb.
  apply wfp_addto_P. cbn [mem_P]. intros p Hp.
  apply lookup_lt_Some in Ha0, Hb, Hp. cbv beta in Hs'. lia.
Qed.

Lemma sum_product_body_keeps n m0 bidx lo hi s :
  hi < SIZE_MAX -> 0 <= lo <= hi + 1 -> hi + 1 - lo < fuel ->
  keeps s ->
  wfp (let* a0 := load A0_coeffs A0 m0 in
       let* a1 := load A1_coeffs A1 m0 in
       let* b := load B_coeffs B bidx in
       store_P n (int_mul (int_add a0 a1) b) ;;
       for_le fuel lo hi (fun m =>
         let* a0 := load A0_coeffs A0 m in
         let* a1 := load A1_coeffs A1 m in
         let* b := load B_coeffs B (size_sub n m) in
         addto_P n (int_mul (int_add a0 a1) b)))
      (fun _ => keeps) s.
Proof.
  intros Hhi Hlo Hfuel Hs.
  apply wfp_bind, wfp_load. intros a0 _.
  apply wfp_bind, wfp_load. intros a1 _.
  apply wfp_bind, wfp_load. intros b _.
  apply wfp_bind, wfp_store_P. intros _.
  apply sum_product_inner_keeps; [done..|].
  cbn [mem_P]. by rewrite length_insert.
Qed.

Lemma sum_product_body_faults_P n m0 bidx lo hi s :
  0 <= n -> L <= n -> keeps s ->
  wfp (let* a0 := load A0_coeffs A0 m0 in
       let* a1 := load A1_coeffs A1 m0 in
       let* b := load B_coeffs B bidx in
       store_P n (int_mul (int_add a0 a1) b) ;;
       for_le fuel lo hi (fun m =>
         let* a0 := load A0_coeffs A0 m in
         let* a1 := load A1_coeffs A1 m in
         let* b := load B_coeffs B (size_sub n m) in
         addto_P n (int_mul (int_add a0 a1) b)))
      (fun _ _ => False) s.
Proof.
  intros Hn HL Hs.
  apply wfp_bind, wfp_load. intros a0 _.
  apply wfp_bind, wfp_load. intros a1 _.
  apply wfp_bind, wfp_load. intros b _.
  apply wfp_bind, wfp_store_P. cbn [mem_P]. intros Hlt.
  cbv beta in Hs. lia.
Qed.
End Naive_AddTo_Sum_Product_faults.

(** X4. [Naive_AddTo_Sum_Product] called with [1 <= A_len <= B_len] on an
    output buffer of fewer than [A_len + B_len - 1] cells faults, whatever
    the operands: it reads or writes the first cell past the buffer. *)
Theorem Naive_AddTo_Sum_Product_short_output_faults
    (A0 A1 B P : list Z) (A_len B_len : Z) (fuel : nat) :
  1 <= A_len -> A_len <= B_len -> A_len + B_len - 1 <= SIZE_MAX ->
  B_len < fuel ->
  length P < A_len + B_len - 1 ->
  call (Naive_AddTo_Sum_Product fuel A0 A1 A_len B B_len) P = Fault.
Proof.
  intros H1 HAB Hmax Hfuel HP. unfold call. apply wfp_fault.
  unfold Naive_AddTo_Sum_Product. cbv zeta. rewrite one_eq, zero_eq.
  rewrite (size_sub_small A_len 1), (size_sub_small B_len 1) by lia.
  rewrite !size_add_small by lia.
  set (L := length P). set (keeps := fun s : state => length (mem_P s) = L).
  assert (Hbody1 : forall n s, 0 <= n <= A_len - 1 -> keeps s ->
    wfp (for_le fuel 0 n (fun m =>
           let* a0 := load A0_coeffs A0 m in
           let* a1 := load A1_coeffs A1 m in
           let* b := load B_coeffs B (size_sub n m) in
           addto_P n (int_mul (int_add a0 a1) b))) (fun _ => keeps) s).
  { intros n s Hn Hs.
    apply (sum_product_inner_keeps A0 A1 B fuel L); [lia..|done]. }
  assert (Hbody2 : forall n s, A_len <= n <= B_len - 1 -> keeps s ->
    wfp (let* a0 := load A0_coeffs A0 0 in
         let* a1 := load A1_coeffs A1 0 in
         let* b := load B_coeffs B n in
         store_P n (int_mul (int_add a0 a1) b) ;;
         for_le fuel 1 (A_len - 1) (fun m =>
           let* a0 := load A0_coeffs A0 m in
           let* a1 := load A1_coeffs A1 m in
           let* b := load B_coeffs B (size_sub n m) in
           addto_P n (int_mul (int_add a0 a1) b))) (fun _ => keeps) s).
  { intros n s Hn Hs.
    apply (sum_product_body_keeps A0 A1 B fuel L); [lia..|done]. }
  destruct (decide (L <= A_len - 1)) as [Hr1|Hr1].
  { apply wfp_bind_fault.
    apply (wfp_for_le_fault (fun _ => keeps) _ L); try lia; try done.
    - intros n s Hn Hs. apply Hbody1; [lia|done].
    - intros s Hs.
      apply (sum_product_inner_faults A0 A1 B fuel L); try lia; done. }
  apply wfp_bind. eapply wfp_mono.
  { apply (wfp_for_le (fun _ => keeps)); try lia; done. }
  intros [] s1 Hs1.
  destruct (decide (L <= B_len - 1)) as [Hr2|Hr2].
  { apply wfp_bind_fault.
    apply (wfp_for_le_fault (fun _ => keeps) _ L); try lia; try done.
    - intros n s Hn Hs. apply Hbody2; [lia|done].
    - intros s Hs. by apply (sum_product_body_faults_P A0 A1 B fuel L);
        try lia. }
  apply wfp_bind. eapply wfp_mono.
  { apply (wfp_for_le (fun _ => keeps)); try lia; try done.
    intros n s Hn Hs. apply Hbody2; [lia|done]. }
  intros [] s2 Hs2.
  apply (wfp_for_le_fault (fun _ => keeps) _ L); try lia; try done.
  - intros n s Hn Hs.
    rewrite (size_sub_small n (B_len - 1)) by lia.
    rewrite size_add_small by lia.
    apply (sum_product_body_keeps A0 A1 B fuel L); [lia..|done].
  - intros s Hs. by apply (sum_product_body_faults_P A0 A1 B fuel L);
      try lia.
Qed.

Lemma Naive_AddTo_Sum_Product_short_output_faults_witness :
  call (Naive_AddTo_Sum_Product 4 [1; 1] [2; 0] 2 [1; 0; 1] 3) [0; 0; 0]
  = Fault.
Proof.
  apply (Naive_AddTo_Sum_Product_short_output_faults
           [1; 1] [2; 0] [1; 0; 1] [0; 0; 0] 2 3 4);
    vm_compute; first [reflexivity | congruence].
Defined.

(** X5. [Naive_AddTo_Sum_Product] called on operands of lengths [A_len]
    and [B_len] that do not satisfy [1 <= A_len <= B_len] faults, whatever
    the output buffer: with [A_len = 0] it reads [A0_coeffs[0]], with
    [A_len > B_len] its first loop reads [B_coeffs[B_len]] (or a cell past
    a shorter output buffer before). *)
Theorem Naive_AddTo_Sum_Product_bad_lengths_faults
    (A0 A1 B P : list Z) (A_len B_len : Z) (fuel : nat) :
  A_len = length A0 -> B_len = length B -> A_len <= SIZE_MAX ->
  B_len < fuel ->
  ~ (1 <= A_len <= B_len) ->
  call (Naive_AddTo_Sum_Product fuel A0 A1 A_len B B_len) P = Fault.
Proof.
  intros HA HB Hmax Hfuel Hbad. unfold call. apply wfp_fault.
  unfold Naive_AddTo_Sum_Product. cbv zeta. rewrite zero_eq.
  apply wfp_bind_fault.
  set (L := length P).
  destruct (decide (A_len = 0)) as [H0|H0].
  - rewrite H0, size_sub_0_1.
    apply (wfp_for_le_fault (fun _ s => length (mem_P s) = L) _ 0);
      try lia; try done.
    intros s Hs.
    apply (sum_product_inner_faults A0 A1 B fuel L); try lia; done.
  - rewrite one_eq, (size_sub_small A_len 1) by lia.
    destruct (decide (L < B_len)) as [HL|HL].
    + apply (wfp_for_le_fault (fun _ s => length (mem_P s) = L) _ L);
        try lia; try done.
      * intros n s Hn Hs.
        apply (sum_product_inner_keeps A0 A1 B fuel L); [lia..|done].
      * intros s Hs.
        apply (sum_product_inner_faults A0 A1 B fuel L); try lia; done.
    + apply (wfp_for_le_fault (fun _ s => length (mem_P s) = L) _ B_len);
        try lia; try done.
      * intros n s Hn Hs.
        apply (sum_product_inner_keeps A0 A1 B fuel L); [lia..|done].
      * intros s Hs.
        apply (sum_product_inner_faults A0 A1 B fuel L); try lia; done.
Qed.

Lemma Naive_AddTo_Sum_Product_bad_lengths_faults_witness :
  call (Naive_AddTo_Sum_Product 4 [1; 2; 3] [0; 0; 0] 3 [4; 5] 2)
       [0; 0; 0; 0] = Fault.
Proof.
  apply (Naive_AddTo_Sum_Product_bad_lengths_faults
           [1; 2; 3] [0; 0; 0] [4; 5] [0; 0; 0; 0] 3 2 4);
    vm_compute; first [reflexivity | congruence | intros [_ H]; by apply H].
Defined.

(** ** Algebra of the Cauchy sum *)

Lemma sum_range_plus f g lo hi :
  sum_range (fun i => f i + g i) lo hi = sum_range f lo hi + sum_range g lo hi.
Proof. apply sumZ_plus. Qed.

Lemma cauchy_ext a a' b b' A_len B_len n :
  (forall i, 0 <= i < A_len -> a i = a' i) ->
  (forall j, 0 <= j < B_len -> b j = b' j) ->
  cauchy a b A_len B_len n = cauchy a' b' A_len B_len n.
Proof.
  intros Ha Hb. unfold cauchy.
  apply sum_range_ext. intros i Hi. apply sum_range_ext. intros j Hj.
  by rewrite Ha, Hb.
Qed.

Lemma cauchy_plus_l a0 a1 b A_len B_len n :
  cauchy (fun i => a0 i + a1 i) b A_len B_len n =
  cauchy a0 b A_len B_len n + cauchy a1 b A_len B_len n.
Proof.
  unfold cauchy. rewrite <- sum_range_plus.
  apply sum_range_ext. intros i Hi. rewrite <- sum_range_plus.
  apply sum_range_ext. intros j Hj. case_decide; lia.
Qed.

Lemma wrap_int_sumZ f g lo cnt :
  (forall i, lo <= i < lo + Z.of_nat cnt -> wrap_int (f i) = wrap_int (g i)) ->
  wrap_int (sumZ f lo cnt) = wrap_int (sumZ g lo cnt).
Proof.
  revert lo. induction cnt as [|cnt IH]; intros lo H; [done|].
  cbn [sumZ].
  rewrite <- wrap_int_add_l, H, wrap_int_add_l by lia.
  rewrite <- wrap_int_add_r, (IH (lo + 1)), wrap_int_add_r; [done|].
  intros i Hi. apply H. lia.
Qed.

Lemma wrap_int_sum_range f g lo hi :
  (forall i, lo <= i < hi -> wrap_int (f i) = wrap_int (g i)) ->
  wrap_int (sum_range f lo hi) = wrap_int (sum_range g lo hi).
Proof. intros H. apply wrap_int_sumZ. intros i Hi. apply H. lia. Qed.

(** The Cauchy sum taken modulo [2 ^ INT_BITS] only depends on the left
    coefficients modulo [2 ^ INT_BITS]. *)
Lemma wrap_int_cauchy_l a a' b A_len B_len n :
  (forall i, 0 <= i < A_len -> wrap_int (a i) = wrap_int (a' i)) ->
  wrap_int (cauchy a b A_len B_len n) = wrap_int (cauchy a' b A_len B_len n).
Proof.
  intros Ha. unfold cauchy.
  apply wrap_int_sum_range. intros i Hi.
  apply wrap_int_sum_range. intros j Hj.
  case_decide; [|done].
  by rewrite <- wrap_int_mul_l, Ha, wrap_int_mul_l.
Qed.

Lemma length_poly_sum (A0 A1 : list Z) :
  length A0 = length A1 -> length (poly_sum A0 A1) = length A0.
Proof. intros H. unfold poly_sum. by rewrite length_zip_with_l_eq. Qed.

Lemma coeff_poly_sum (A0 A1 : list Z) i :
  length A0 = length A1 -> 0 <= i < length A0 ->
  coeff (poly_sum A0 A1) i = int_add (coeff A0 i) (coeff A1 i).
Proof.
  intros Hlen Hi. unfold coeff at 1, poly_sum. rewrite lookup_zip_with.
  rewrite (lookup_coeff A0), (lookup_coeff A1) by lia. done.
Qed.

(** ** What Naive_AddTo_Sum_Product computes *)

(** X6. For [1 <= A_len <= B_len], [Naive_AddTo_Sum_Product] returns and
    leaves, as [int]s: at an index [n < A_len] the caller's [P[n]] plus the
    convolution sum of the [(A0[i] + A1[i]) * B[j]] with [i + j = n]; at an
    index [n] of [A_len .. A_len + B_len - 2] that convolution sum alone,
    the caller's value being overwritten; the other cells and the length
    of the buffer are kept. *)
Theorem Naive_AddTo_Sum_Product_result
    (A0 A1 B P : list Z) (A_len B_len : Z) (fuel : nat) :
  A_len = length A0 -> A_len = length A1 -> B_len = length B ->
  1 <= A_len -> A_len <= B_len ->
  A_len + B_len - 1 <= length P -> length P <= SIZE_MAX ->
  B_len < fuel ->
  exists P',
    output (call (Naive_AddTo_Sum_Product fuel A0 A1 A_len B B_len) P)
      = Some P' /\
    length P' = length P /\
    (forall n, 0 <= n < A_len ->
       P' !! Z.to_nat n =
       Some (wrap_int (coeff P n +
               cauchy (fun i => coeff A0 i + coeff A1 i) (coeff B)
                      A_len B_len n))) /\
    (forall n, A_len <= n <= A_len + B_len - 2 ->
       P' !! Z.to_nat n =
       Some (wrap_int (cauchy (fun i => coeff A0 i + coeff A1 i) (coeff B)
                              A_len B_len n))) /\
    (forall k : nat, A_len + B_len - 1 <= k -> P' !! k = P !! k).
Proof.
  intros HA0 HA1 HB H1 HAB HP Hmax Hfuel.
  destruct (Naive_AddTo_Sum_Product_call fuel A0 A1 B P A_len B_len)
    as (s & E & Hlen & Hlo & Hup & _); try done.
  exists (mem_P s). rewrite E. split; [done|]. split; [done|].
  split; [|split].
  - intros n Hn. rewrite Hlo by lia.
    unfold sum_product_coeff, sum_product_expected.
    rewrite decide_True by lia. by subst.
  - intros n Hn. rewrite Hlo by lia. unfold sum_product_coeff.
    rewrite decide_False by lia. by subst.
  - by apply lookup_nat_Z.
Qed.

Lemma Naive_AddTo_Sum_Product_result_witness :
  exists P',
    output (call (Naive_AddTo_Sum_Product 4 [1; 1] [2; 0] 2 [1; 0; 1] 3)
                 [5; 5; 5; 5; 5])
      = Some P' /\
    length P' = length [5; 5; 5; 5; 5] /\
    (forall n, 0 <= n < 2 ->
       P' !! Z.to_nat n =
       Some (wrap_int (coeff [5; 5; 5; 5; 5] n +
               cauchy (fun i => coeff [1; 1] i + coeff [2; 0] i)
                      (coeff [1; 0; 1]) 2 3 n))) /\
    (forall n, 2 <= n <= 2 + 3 - 2 ->
       P' !! Z.to_nat n =
       Some (wrap_int (cauchy (fun i => coeff [1; 1] i + coeff [2; 0] i)
                              (coeff [1; 0; 1]) 2 3 n))) /\
    (forall k : nat, 2 + 3 - 1 <= k -> P' !! k = [5; 5; 5; 5; 5] !! k).
Proof.
  apply (Naive_AddTo_Sum_Product_result
           [1; 1] [2; 0] [1; 0; 1] [5; 5; 5; 5; 5] 2 3 4);
    first [reflexivity | vm_compute; congruence].
Defined.

(** X7. For [1 <= A_len <= B_len], when the cells
    [A_len .. A_len + B_len - 2] of the output buffer hold zero on entry,
    [Naive_AddTo_Sum_Product] meets its documented contract
    [P += (A0 + A1) * B] at every index of [0 .. A_len + B_len - 2]. *)
Theorem Naive_AddTo_Sum_Product_zero_tail
    (A0 A1 B P : list Z) (A_len B_len : Z) (fuel : nat) :
  A_len = length A0 -> A_len = length A1 -> B_len = length B ->
  1 <= A_len -> A_len <= B_len ->
  A_len + B_len - 1 <= length P -> length P <= SIZE_MAX ->
  B_len < fuel ->
  (forall n, A_len <= n <= A_len + B_len - 2 -> coeff P n = 0) ->
  exists P',
    output (call (Naive_AddTo_Sum_Product fuel A0 A1 A_len B B_len) P)
      = Some P' /\
    forall n, 0 <= n <= A_len + B_len - 2 ->
      P' !! Z.to_nat n = Some (sum_product_expected A0 A1 B P n).
Proof.
  intros HA0 HA1 HB H1 HAB HP Hmax Hfuel Hzero.
  destruct (Naive_AddTo_Sum_Product_call fuel A0 A1 B P A_len B_len)
    as (s & E & Hlen & Hlo & Hup & _); try done.
  exists (mem_P s). rewrite E. split; [done|].
  intros n Hn. rewrite Hlo by lia. unfold sum_product_coeff.
  case_decide; [done|]. unfold sum_product_expected.
  by rewrite Hzero by lia.
Qed.

Lemma Naive_AddTo_Sum_Product_zero_tail_witness :
  exists P',
    output (call (Naive_AddTo_Sum_Product 4 [1; 1] [2; 0] 2 [1; 0; 1] 3)
                 [5; 6; 0; 0])
      = Some P' /\
    forall n, 0 <= n <= 2 + 3 - 2 ->
      P' !! Z.to_nat n =
      Some (sum_product_expected [1; 1] [2; 0] [1; 0; 1] [5; 6; 0; 0] n).
Proof.
  apply (Naive_AddTo_Sum_Product_zero_tail
           [1; 1] [2; 0] [1; 0; 1] [5; 6; 0; 0] 2 3 4);
    try first [reflexivity | vm_compute; congruence].
  intros n Hn.
  assert (n = 2 \/ n = 3) as [-> | ->] by lia; reflexivity.
Defined.

(** X8. The fused kernel against the plain one.  For [1 <= A_len <= B_len],
    let [Q] be the buffer [Naive_Product] leaves for the pointwise [int]
    sum of [A0] and [A1] times [B].  [Naive_AddTo_Sum_Product] adds [Q[n]]
    to the caller's [P[n]] at the indices [n < A_len], and stores [Q[n]]
    itself at the indices [A_len .. A_len + B_len - 2]. *)
Theorem Naive_AddTo_Sum_Product_unfused
    (A0 A1 B P P1 : list Z) (A_len B_len : Z) (fuel : nat) :
  A_len = length A0 -> A_len = length A1 -> B_len = length B ->
  1 <= A_len -> A_len <= B_len ->
  A_len + B_len - 1 <= length P -> length P <= SIZE_MAX ->
  A_len + B_len - 1 <= length P1 -> length P1 <= SIZE_MAX ->
  B_len < fuel ->
  exists P' Q,
    output (call (Naive_AddTo_Sum_Product fuel A0 A1 A_len B B_len) P)
      = Some P' /\
    output (call (Naive_Product fuel (poly_sum A0 A1) A_len B B_len) P1)
      = Some Q /\
    (forall n, 0 <= n < A_len ->
       P' !! Z.to_nat n = Some (int_add (coeff P n) (coeff Q n))) /\
    (forall n, A_len <= n <= A_len + B_len - 2 ->
       P' !! Z.to_nat n = Some (coeff Q n)).
Proof.
  intros HA0 HA1 HB H1 HAB HP Hmax HP1 Hmax1 Hfuel.
  destruct (Naive_AddTo_Sum_Product_call fuel A0 A1 B P A_len B_len)
    as (s & E & Hlen & Hlo & Hup & _); try done.
  assert (Hsum : length (poly_sum A0 A1) = length A0)
    by (apply length_poly_sum; lia).
  destruct (Naive_Product_call fuel (poly_sum A0 A1) B P1 A_len B_len)
    as (q & Eq & Hqlen & Hqlo & _); try done; [lia|].
  exists (mem_P s), (mem_P q). rewrite E, Eq. split; [done|]. split; [done|].
  assert (Hq : forall n, 0 <= n <= A_len + B_len - 2 ->
    coeff (mem_P q) n =
    wrap_int (cauchy (fun i => coeff A0 i + coeff A1 i) (coeff B)
                     (length A0) (length B) n)).
  { intros n Hn. unfold coeff at 1. rewrite Hqlo by lia. cbn [default].
    unfold product_coeff. rewrite Hsum.
    apply wrap_int_cauchy_l. intros i Hi.
    rewrite coeff_poly_sum by lia. unfold int_add. apply wrap_int_idemp. }
  split.
  - intros n Hn. rewrite Hlo, Hq by lia. f_equal.
    unfold sum_product_coeff, sum_product_expected, int_add.
    rewrite decide_True by lia. by rewrite wrap_int_add_r.
  - intros n Hn. rewrite Hlo, Hq by lia. f_equal.
    unfold sum_product_coeff. by rewrite decide_False by lia.
Qed.

Lemma Naive_AddTo_Sum_Product_unfused_witness :
  exists P' Q,
    output (call (Naive_AddTo_Sum_Product 4 [1; 1] [2; 0] 2 [1; 0; 1] 3)
                 [5; 6; 7; 8])
      = Some P' /\
    output (call (Naive_Product 4 (poly_sum [1; 1] [2; 0]) 2 [1; 0; 1] 3)
                 [0; 0; 0; 0])
      = Some Q /\
    (forall n, 0 <= n < 2 ->
       P' !! Z.to_nat n =
       Some (int_add (coeff [5; 6; 7; 8] n) (coeff Q n))) /\
    (forall n, 2 <= n <= 2 + 3 - 2 -> P' !! Z.to_nat n = Some (coeff Q n)).
Proof.
  apply (Naive_AddTo_Sum_Product_unfused
           [1; 1] [2; 0] [1; 0; 1] [5; 6; 7; 8] [0; 0; 0; 0] 2 3 4);
    first [reflexivity | vm_compute; congruence].
Defined.

(** X9. The fused kernel against two plain products.  For
    [1 <= A_len <= B_len], let [Q0] and [Q1] be the buffers [Naive_Product]
    leaves for [A0] times [B] and for [A1] times [B].
    [Naive_AddTo_Sum_Product] leaves [P[n] + Q0[n] + Q1[n]] at the indices
    [n < A_len] and [Q0[n] + Q1[n]] at the indices
    [A_len .. A_len + B_len - 2], as [int]s. *)
Theorem Naive_AddTo_Sum_Product_distributes
    (A0 A1 B P P0 P1 : list Z) (A_len B_len : Z) (fuel : nat) :
  A_len = length A0 -> A_len = length A1 -> B_len = length B ->
  1 <= A_len -> A_len <= B_len ->
  A_len + B_len - 1 <= length P -> length P <= SIZE_MAX ->
  A_len + B_len - 1 <= length P0 -> length P0 <= SIZE_MAX ->
  A_len + B_len - 1 <= length P1 -> length P1 <= SIZE_MAX ->
  B_len < fuel ->
  exists P' Q0 Q1,
    output (call (Naive_AddTo_Sum_Product fuel A0 A1 A_len B B_len) P)
      = Some P' /\
    output (call (Naive_Product fuel A0 A_len B B_len) P0) = Some Q0 /\
    output (call (Naive_Product fuel A1 A_len B B_len) P1) = Some Q1 /\
    (forall n, 0 <= n < A_len ->
       P' !! Z.to_nat n =
       Some (wrap_int (coeff P n + coeff Q0 n + coeff Q1 n))) /\
    (forall n, A_len <= n <= A_len + B_len - 2 ->
       P' !! Z.to_nat n = Some (wrap_int (coeff Q0 n + coeff Q1 n))).
Proof.
  intros HA0 HA1 HB H1 HAB HP Hmax HP0 Hmax0 HP1 Hmax1 Hfuel.
  destruct (Naive_AddTo_Sum_Product_call fuel A0 A1 B P A_len B_len)
    as (s & E & Hlen & Hlo & Hup & _); try done.
  destruct (Naive_Product_call fuel A0 B P0 A_len B_len)
    as (q0 & E0 & _ & Hlo0 & _); try done.
  destruct (Naive_Product_call fuel A1 B P1 A_len B_len)
    as (q1 & E1 & _ & Hlo1 & _); try done.
  exists (mem_P s), (mem_P q0), (mem_P q1). rewrite E, E0, E1.
  split; [done|]. split; [done|]. split; [done|].
  assert (Hq : forall n, 0 <= n <= A_len + B_len - 2 ->
    wrap_int (cauchy (fun i => coeff A0 i + coeff A1 i) (coeff B)
                     (length A0) (length B) n) =
    wrap_int (coeff (mem_P q0) n + coeff (mem_P q1) n)).
  { intros n Hn.
    assert (coeff (mem_P q0) n = product_coeff A0 B n) as ->
      by (unfold coeff at 1; by rewrite Hlo0 by lia).
    assert (coeff (mem_P q1) n = product_coeff A1 B n) as ->
      by (unfold coeff at 1; by rewrite Hlo1 by lia).
    unfold product_coeff.
    rewrite wrap_int_add_l, wrap_int_add_r, cauchy_plus_l.
    do 3 f_equal. lia. }
  split.
  - intros n Hn. rewrite Hlo by lia. f_equal.
    unfold sum_product_coeff, sum_product_expected.
    rewrite decide_True by lia.
    rewrite <- wrap_int_add_r, Hq, wrap_int_add_r by lia.
    apply (f_equal wrap_int). ring.
  - intros n Hn. rewrite Hlo by lia. f_equal.
    unfold sum_product_coeff. rewrite decide_False by lia. apply Hq. lia.
Qed.

Lemma Naive_AddTo_Sum_Product_distributes_witness :
  exists P' Q0 Q1,
    output (call (Naive_AddTo_Sum_Product 4 [1; 1] [2; 0] 2 [1; 0; 1] 3)
                 [5; 6; 7; 8])
      = Some P' /\
    output (call (Naive_Product 4 [1; 1] 2 [1; 0; 1] 3) [0; 0; 0; 0])
      = Some Q0 /\
    output (call (Naive_Product 4 [2; 0] 2 [1; 0; 1] 3) [0; 0; 0; 0])
      = Some Q1 /\
    (forall n, 0 <= n < 2 ->
       P' !! Z.to_nat n =
       Some (wrap_int (coeff [5; 6; 7; 8] n + coeff Q0 n + coeff Q1 n))) /\
    (forall n, 2 <= n <= 2 + 3 - 2 ->
       P' !! Z.to_nat n = Some (wrap_int (coeff Q0 n + coeff Q1 n))).
Proof.
  apply (Naive_AddTo_Sum_Product_distributes
           [1; 1] [2; 0] [1; 0; 1] [5; 6; 7; 8] [0; 0; 0; 0] [0; 0; 0; 0]
           2 3 4);
    first [reflexivity | vm_compute; congruence].
Defined.

(** X10. [Naive_AddTo_Sum_Product] is symmetric in [A0] and [A1]: for
    [1 <= A_len <= B_len], exchanging the two summands leaves the same
    output buffer. *)
Theorem Naive_AddTo_Sum_Product_swap
    (A0 A1 B P : list Z) (A_len B_len : Z) (fuel : nat) :
  A_len = length A0 -> A_len = length A1 -> B_len = length B ->
  1 <= A_len -> A_len <= B_len ->
  A_len + B_len - 1 <= length P -> length P <= SIZE_MAX ->
  B_len < fuel ->
  exists P',
    output (call (Naive_AddTo_Sum_Product fuel A0 A1 A_len B B_len) P)
      = Some P' /\
    output (call (Naive_AddTo_Sum_Product fuel A1 A0 A_len B B_len) P)
      = Some P'.
Proof.
  intros HA0 HA1 HB H1 HAB HP Hmax Hfuel.
  destruct (Naive_AddTo_Sum_Product_call fuel A0 A1 B P A_len B_len)
    as (s & E & Hlen & Hlo & Hup & _); try done.
  destruct (Naive_AddTo_Sum_Product_call fuel A1 A0 B P A_len B_len)
    as (s' & E' & Hlen' & Hlo' & Hup' & _); try done.
  exists (mem_P s). rewrite E, E'. split; [done|].
  cbn [output]. f_equal. apply list_eq. intros i.
  destruct (decide (i < A_len + B_len - 1)) as [Hi|Hi].
  - specialize (Hlo i). specialize (Hlo' i).
    rewrite Nat2Z.id in Hlo, Hlo'. rewrite Hlo, Hlo' by lia. f_equal.
    unfold sum_product_coeff, sum_product_expected.
    rewrite <- HA0, <- HA1.
    rewrite (cauchy_ext (fun i => coeff A1 i + coeff A0 i)
                        (fun i => coeff A0 i + coeff A1 i)
                        (coeff B) (coeff B)); [done| |done].
    intros j _. lia.
  - specialize (Hup i). specialize (Hup' i).
    rewrite Nat2Z.id in Hup, Hup'. rewrite Hup, Hup' by lia. done.
Qed.

Lemma Naive_AddTo_Sum_Product_swap_witness :
  exists P',
    output (call (Naive_AddTo_Sum_Product 4 [1; 1] [2; 0] 2 [1; 0; 1] 3)
                 [5; 6; 7; 8])
      = Some P' /\
    output (call (Naive_AddTo_Sum_Product 4 [2; 0] [1; 1] 2 [1; 0; 1] 3)
                 [5; 6; 7; 8])
      = Some P'.
Proof.
  apply (Naive_AddTo_Sum_Product_swap
           [1; 1] [2; 0] [1; 0; 1] [5; 6; 7; 8] 2 3 4);
    first [reflexivity | vm_compute; congruence].
Defined.

(** ** Naive_Product by a monomial *)

Lemma length_monomial k c : length (monomial k c) = S k.
Proof. unfold monomial. rewrite length_app, length_replicate. simpl. lia. Qed.

Lemma coeff_monomial k c i :
  0 <= i -> coeff (monomial k c) i = if decide (i = k) then c else 0.
Proof.
  intros Hi. unfold coeff, monomial. case_decide as E.
  - subst i. rewrite Nat2Z.id.
    by rewrite list_lookup_middle by by rewrite length_replicate.
  - destruct (decide (i < k)) as [Hlt|Hge].
    + rewrite lookup_app_l by (rewrite length_replicate; lia).
      by rewrite lookup_replicate_2 by lia.
    + rewrite (proj2 (lookup_ge_None _ _)); [done|].
      rewrite length_app, length_replicate. simpl. lia.
Qed.

Lemma cauchy_monomial (k : nat) c b B_len n :
  cauchy (coeff (monomial k c)) b (k + 1) B_len n =
  if decide (k <= n < k + B_len) then c * b (n - k) else 0.
Proof.
  unfold cauchy.
  rewrite (sum_range_ext _ (fun i =>
    if decide (i = k)
    then sum_range (fun j => if decide (j = n - k) then c * b j else 0)
                   0 B_len
    else 0)).
  - rewrite sum_range_pick, decide_True by lia.
    rewrite sum_range_pick. repeat case_decide; lia || done.
  - intros i Hi. rewrite coeff_monomial by lia. case_decide as E.
    + subst i. apply sum_range_ext. intros j Hj. repeat case_decide; lia.
    + apply sum_range_zero. intros j Hj. case_decide; lia.
Qed.

(** X11. Multiplying by the monomial [c * x^k] shifts and scales: for
    [k + 1 <= B_len], [Naive_Product] on the coefficients of [c * x^k] and
    on [B] leaves zero in the cells below [k] and [c * B[n - k]], as an
    [int], in the cells [n] of [k .. k + B_len - 1]. *)
Theorem Naive_Product_monomial
    (k : nat) (c : Z) (B P : list Z) (B_len : Z) (fuel : nat) :
  B_len = length B -> k + 1 <= B_len ->
  k + B_len <= length P -> length P <= SIZE_MAX ->
  B_len < fuel ->
  exists P',
    output (call (Naive_Product fuel (monomial k c) (k + 1) B B_len) P)
      = Some P' /\
    (forall n, 0 <= n < k -> P' !! Z.to_nat n = Some 0) /\
    (forall n, k <= n < k + B_len ->
       P' !! Z.to_nat n = Some (int_mul c (coeff B (n - k)))).
Proof.
  intros HB Hk HP Hmax Hfuel.
  destruct (Naive_Product_call fuel (monomial k c) B P (k + 1) B_len)
    as (s & E & Hlen & Hlo & Hup & _); try done; try lia.
  { rewrite length_monomial. lia. }
  exists (mem_P s). rewrite E. split; [done|].
  assert (Hc : forall n, product_coeff (monomial k c) B n =
    wrap_int (if decide (k <= n < k + B_len) then c * coeff B (n - k)
              else 0)).
  { intros n. unfold product_coeff. rewrite length_monomial, <- HB.
    replace (Z.of_nat (S k)) with (k + 1) by lia.
    by rewrite cauchy_monomial. }
  split.
  - intros n Hn. rewrite Hlo, Hc by lia. by rewrite decide_False by lia.
  - intros n Hn. rewrite Hlo, Hc by lia. by rewrite decide_True by lia.
Qed.

Lemma Naive_Product_monomial_witness :
  exists P',
    output (call (Naive_Product 4 (monomial 1 7) (1%nat + 1) [3; 4; 5] 3)
                 [9; 9; 9; 9])
      = Some P' /\
    (forall n, 0 <= n < 1%nat -> P' !! Z.to_nat n = Some 0) /\
    (forall n, 1%nat <= n < 1%nat + 3 ->
       P' !! Z.to_nat n = Some (int_mul 7 (coeff [3; 4; 5] (n - 1%nat)))).
Proof.
  apply (Naive_Product_monomial 1 7 [3; 4; 5] [9; 9; 9; 9] 3 4);
    first [reflexivity | vm_compute; congruence].
Defined.

(** X12. The one-coefficient polynomial [1] is an identity of
    [Naive_Product]: called on it and on an array [B] of [int]s, the
    kernel leaves a copy of [B] in the first [B_len] cells. *)
Theorem Naive_Product_identity (B P : list Z) (B_len : Z) (fuel : nat) :
  B_len = length B -> 1 <= B_len -> ints B ->
  B_len <= length P -> length P <= SIZE_MAX ->
  B_len < fuel ->
  exists P',
    output (call (Naive_Product fuel [1] 1 B B_len) P) = Some P' /\
    take (length B) P' = B.
Proof.
  intros HB H1 Hints HP Hmax Hfuel.
  destruct (Naive_Product_call fuel [1] B P 1 B_len)
    as (s & E & Hlen & Hlo & Hup & _); try done; try lia.
  exists (mem_P s). rewrite E. split; [done|].
  apply list_eq. intros i.
  destruct (decide (i < length B)%nat) as [Hi|Hi].
  - rewrite lookup_take_lt by done.
    specialize (Hlo i). rewrite Nat2Z.id in Hlo. rewrite Hlo by lia.
    unfold product_coeff.
    change [1] with (monomial 0 1). rewrite length_monomial.
    change (Z.of_nat 1) with (0%nat + 1). rewrite cauchy_monomial.
    rewrite decide_True by lia.
    replace (i - 0%nat) with (Z.of_nat i) by lia.
    destruct (lookup_lt_is_Some_2 B i Hi) as [v Hv].
    unfold coeff. rewrite Nat2Z.id, Hv. cbn [default].
    rewrite Z.mul_1_l, wrap_int_small; [done|].
    by apply (Forall_lookup_1 _ _ _ _ Hints Hv).
  - rewrite lookup_take_ge by lia. symmetry. apply lookup_ge_None. lia.
Qed.

Lemma Naive_Product_identity_witness :
  exists P',
    output (call (Naive_Product 4 [1] 1 [3; -4; 5] 3) [9; 9; 9; 9])
      = Some P' /\
    take (length [3; -4; 5]) P' = [3; -4; 5].
Proof.
  apply (Naive_Product_identity [3; -4; 5] [9; 9; 9; 9] 3 4);
    first [ reflexivity
          | progress unfold ints;
            repeat (constructor; [vm_compute; split; congruence|]);
            constructor
          | vm_compute; congruence ].
Defined.

(** ** Algebra of Scaled_AddTo *)

Lemma ints_coeff (P : list Z) i :
  ints P -> wrap_int (coeff P i) = coeff P i.
Proof.
  intros H. apply wrap_int_small. unfold coeff.
  destruct (P !! Z.to_nat i) as [v|] eqn:E; cbn [default].
  - by apply (Forall_lookup_1 _ _ _ _ H E).
  - done.
Qed.

Lemma lookup_coeff_nat (P : list Z) (i : nat) :
  (i < length P)%nat -> P !! i = Some (coeff P i).
Proof. intros H. rewrite <- (Nat2Z.id i) at 1. apply lookup_coeff. lia. Qed.

(** X13. [Scaled_AddTo] with the scalar [0] leaves an output buffer of
    [int]s exactly as it was. *)
Theorem Scaled_AddTo_zero (A P : list Z) (len : Z) (fuel : nat) :
  len = length A -> len <= length P -> len <= SIZE_MAX -> len < fuel ->
  ints P ->
  output (call (Scaled_AddTo fuel A len 0) P) = Some P.
Proof.
  intros HA HP Hmax Hfuel Hints.
  destruct (Scaled_AddTo_call fuel A P len 0)
    as (s & E & Hlen & Hlo & Hup & _); try done.
  rewrite E. cbn [output]. f_equal. apply list_eq. intros i.
  destruct (decide (i < len)) as [Hi|Hi].
  - specialize (Hlo i). rewrite Nat2Z.id in Hlo. rewrite Hlo by lia.
    rewrite Z.mul_0_l, Z.add_0_r, ints_coeff by done.
    symmetry. apply lookup_coeff_nat. lia.
  - specialize (Hup i). rewrite Nat2Z.id in Hup. by rewrite Hup by lia.
Qed.

Lemma Scaled_AddTo_zero_witness :
  output (call (Scaled_AddTo 3 [1; 2] 2 0) [10; -20; 30])
  = Some [10; -20; 30].
Proof.
  apply (Scaled_AddTo_zero [1; 2] [10; -20; 30] 2 3);
    first [ reflexivity
          | progress unfold ints;
            repeat (constructor; [vm_compute; split; congruence|]);
            constructor
          | vm_compute; congruence ].
Defined.

(** X14. [Scaled_AddTo] can be undone when its input array [A] does not
    overlap the output buffer: on an output buffer of [int]s, a call with
    the scalar [c1] followed by a call on the same [A] with a scalar [c2]
    whose [int] sum with [c1] is zero restores the buffer. *)
Theorem Scaled_AddTo_undo (A P : list Z) (len c1 c2 : Z) (fuel : nat) :
  len = length A -> len <= length P -> len <= SIZE_MAX -> len < fuel ->
  ints P -> int_add c1 c2 = 0 ->
  exists P1,
    output (call (Scaled_AddTo fuel A len c1) P) = Some P1 /\
    output (call (Scaled_AddTo fuel A len c2) P1) = Some P.
Proof.
  intros HA HP Hmax Hfuel Hints Hc.
  destruct (Scaled_AddTo_call fuel A P len c1)
    as (s1 & E1 & Hlen1 & Hlo1 & Hup1 & _); try done.
  set (P1 := mem_P s1) in *.
  destruct (Scaled_AddTo_call fuel A P1 len c2)
    as (s2 & E2 & Hlen2 & Hlo2 & Hup2 & _); try done; [lia|].
  exists P1. rewrite E1, E2. split; [done|].
  cbn [output]. f_equal. apply list_eq. intros i.
  destruct (decide (i < len)) as [Hi|Hi].
  - specialize (Hlo1 i). specialize (Hlo2 i).
    rewrite Nat2Z.id in Hlo1, Hlo2. rewrite Hlo2 by lia.
    assert (coeff P1 i = wrap_int (coeff P i + c1 * coeff A i)) as ->.
    { unfold coeff at 1. by rewrite Nat2Z.id, Hlo1 by lia. }
    rewrite wrap_int_add_l.
    replace (coeff P i + c1 * coeff A i + c2 * coeff A i)
      with (coeff P i + (c1 + c2) * coeff A i) by ring.
    rewrite <- wrap_int_add_r, <- wrap_int_mul_l.
    unfold int_add in Hc. rewrite Hc, Z.mul_0_l, wrap_int_add_r, Z.add_0_r.
    rewrite ints_coeff by done. symmetry. apply lookup_coeff_nat. lia.
  - specialize (Hup1 i). specialize (Hup2 i).
    rewrite Nat2Z.id in Hup1, Hup2. by rewrite Hup2, Hup1 by lia.
Qed.

Lemma Scaled_AddTo_undo_witness :
  exists P1,
    output (call (Scaled_AddTo 3 [1; 2] 2 5) [10; -20; 30]) = Some P1 /\
    output (call (Scaled_AddTo 3 [1; 2] 2 (-5)) P1) = Some [10; -20; 30].
Proof.
  apply (Scaled_AddTo_undo [1; 2] [10; -20; 30] 2 5 (-5) 3);
    first [ reflexivity
          | progress unfold ints;
            repeat (constructor; [vm_compute; split; congruence|]);
            constructor
          | vm_compute; congruence ].
Defined.

(** The cell [i] after a call of [Scaled_AddTo]. *)
Lemma Scaled_AddTo_cell (fuel : nat) (A P : list Z) (len c : Z) :
  len = length A -> len <= length P -> len <= SIZE_MAX -> len < fuel ->
  exists P',
    output (call (Scaled_AddTo fuel A len c) P) = Some P' /\
    length P' = length P /\
    forall i : nat, (i < length P)%nat ->
      coeff P' i =
      if decide (i < len) then wrap_int (coeff P i + c * coeff A i)
      else coeff P i.
Proof.
  intros HA HP Hmax Hfuel.
  destruct (Scaled_AddTo_call fuel A P len c)
    as (s & E & Hlen & Hlo & Hup & _); try done.
  exists (mem_P s). rewrite E. split; [done|]. split; [done|].
  intros i Hi. unfold coeff at 1. rewrite Nat2Z.id. case_decide as Hlt.
  - specialize (Hlo i). rewrite Nat2Z.id in Hlo. by rewrite Hlo by lia.
  - specialize (Hup i). rewrite Nat2Z.id in Hup. rewrite Hup by lia.
    unfold coeff. by rewrite Nat2Z.id.
Qed.

Lemma list_eq_coeff (l1 l2 : list Z) :
  length l1 = length l2 ->
  (forall i : nat, (i < length l1)%nat -> coeff l1 i = coeff l2 i) ->
  l1 = l2.
Proof.
  intros Hlen H. apply list_eq. intros i.
  destruct (decide (i < length l1)%nat) as [Hi|Hi].
  - rewrite !lookup_coeff_nat by lia. f_equal. by apply H.
  - rewrite !(proj2 (lookup_ge_None _ _)) by lia. done.
Qed.

(** X15. Two calls of [Scaled_AddTo] on the same output buffer commute
    when neither input array overlaps the output buffer: adding [c1 * A1]
    on [len1] cells and then [c2 * A2] on [len2] cells leaves the buffer
    that the two calls leave in the other order. *)
Theorem Scaled_AddTo_commute
    (A1 A2 P : list Z) (len1 len2 c1 c2 : Z) (fuel : nat) :
  len1 = length A1 -> len1 <= length P -> len1 < fuel ->
  len2 = length A2 -> len2 <= length P -> len2 < fuel ->
  length P <= SIZE_MAX ->
  exists P1 P2 P',
    output (call (Scaled_AddTo fuel A1 len1 c1) P) = Some P1 /\
    output (call (Scaled_AddTo fuel A2 len2 c2) P1) = Some P' /\
    output (call (Scaled_AddTo fuel A2 len2 c2) P) = Some P2 /\
    output (call (Scaled_AddTo fuel A1 len1 c1) P2) = Some P'.
Proof.
  intros HA1 HP1 Hf1 HA2 HP2 Hf2 Hmax.
  destruct (Scaled_AddTo_cell fuel A1 P len1 c1)
    as (P1 & E1 & L1 & C1); try done; try lia.
  destruct (Scaled_AddTo_cell fuel A2 P1 len2 c2)
    as (P12 & E12 & L12 & C12); try done; try lia.
  destruct (Scaled_AddTo_cell fuel A2 P len2 c2)
    as (P2 & E2 & L2 & C2); try done; try lia.
  destruct (Scaled_AddTo_cell fuel A1 P2 len1 c1)
    as (P21 & E21 & L21 & C21); try done; try lia.
  exists P1, P2, P12. rewrite E1, E12, E2, E21.
  split; [done|]. split; [done|]. split; [done|]. f_equal.
  apply list_eq_coeff; [lia|]. intros i Hi.
  rewrite C21, C12, C1, C2 by lia.
  repeat case_decide; try done.
  rewrite !wrap_int_add_l. f_equal. ring.
Qed.

Lemma Scaled_AddTo_commute_witness :
  exists P1 P2 P',
    output (call (Scaled_AddTo 4 [1; 2] 2 5) [10; 20; 30]) = Some P1 /\
    output (call (Scaled_AddTo 4 [7; 8; 9] 3 (-2)) P1) = Some P' /\
    output (call (Scaled_AddTo 4 [7; 8; 9] 3 (-2)) [10; 20; 30]) = Some P2 /\
    output (call (Scaled_AddTo 4 [1; 2] 2 5) P2) = Some P'.
Proof.
  apply (Scaled_AddTo_commute [1; 2] [7; 8; 9] [10; 20; 30] 2 3 5 (-2) 4);
    first [reflexivity | vm_compute; congruence].
Defined.

(** ** The cost of Naive_Product *)

Lemma sum_range_const c lo hi :
  lo <= hi -> sum_range (fun _ => c) lo hi = c * (hi - lo).
Proof.
  intros H. unfold sum_range.
  replace (hi - lo) with (Z.of_nat (Z.to_nat (hi - lo))) at 2 by lia.
  generalize (Z.to_nat (hi - lo)). clear H. intros cnt. revert lo.
  induction cnt as [|cnt IH]; intros lo; [simpl; lia|].
  cbn [sumZ]. rewrite IH. lia.
Qed.

(** The bands of the output indices hold [A_len * B_len] pairs in all. *)
Lemma cauchy_ones_total A_len B_len :
  1 <= A_len -> 1 <= B_len ->
  sum_range (cauchy (fun _ => 1) (fun _ => 1) A_len B_len)
            0 (A_len + B_len - 1) = A_len * B_len.
Proof.
  intros HA HB. unfold cauchy. rewrite sum_range_swap.
  rewrite (sum_range_ext _ (fun _ => B_len)).
  { rewrite sum_range_const by lia. lia. }
  intros i Hi. rewrite sum_range_swap.
  rewrite (sum_range_ext _ (fun _ => 1)).
  { rewrite sum_range_const by lia. lia. }
  intros j Hj.
  rewrite (sum_range_ext _ (fun n => if decide (n = i + j) then 1 else 0)).
  - rewrite sum_range_pick. by rewrite decide_True by lia.
  - intros n Hn. repeat case_decide; lia.
Qed.

Lemma cauchy_ones_band A_len B_len n m0 hi :
  m0 = Z.max 0 (n - (B_len - 1)) -> hi = Z.min n (A_len - 1) ->
  m0 <= hi + 1 ->
  cauchy (fun _ => 1) (fun _ => 1) A_len B_len n = hi + 1 - m0.
Proof.
  intros Hm0 Hhi Hle.
  rewrite (cauchy_band _ _ _ _ _ m0 (hi + 1)) by lia.
  rewrite sum_range_const by lia. lia.
Qed.

Section Naive_Product_cost.
Variables (A B : list Z) (A_len B_len : Z) (fuel : nat).
Hypothesis HA1 : 1 <= A_len.
Hypothesis HAB : A_len <= B_len.
Hypothesis Hmax : A_len + B_len - 1 <= SIZE_MAX.
Hypothesis Hfuel : B_len < fuel.

(** [grown d s0 s]: since the state [s0] the log has gained [d] accesses
    of every kind. *)
Local Abbreviation grown := (fun (d : Z) (s0 s : state) =>
  forall k, count_kind k (accesses s) = count_kind k (accesses s0) + d).

Lemma product_inner_cost n lo hi s :
  hi < SIZE_MAX -> 0 <= lo <= hi + 1 -> hi + 1 - lo < fuel ->
  wfp (for_le fuel lo hi (fun m =>
         let* a := load A_coeffs A m in
         let* b := load B_coeffs B (size_sub n m) in
         addto_P n (int_mul a b)))
      (fun _ => grown (hi + 1 - lo) s) s.
Proof.
  intros Hhi Hlo Hf.
  eapply wfp_mono.
  { apply (wfp_for_le (fun m => grown (m - lo) s)); [done..| |].
    - intros k. lia.
    - intros m s' Hm Hs'. apply wfp_bind, wfp_load. intros a _.
      apply wfp_bind, wfp_load. intros b _.
      apply wfp_addto_P. intros p _ k. cbn [accesses count_kind].
      rewrite Hs'. destruct k; simpl; lia. }
  intros [] s' Hs' k. rewrite Hs'. lia.
Qed.

Lemma product_body_cost n m0 bidx lo hi s :
  lo = m0 + 1 ->
  hi < SIZE_MAX -> 0 <= lo <= hi + 1 -> hi + 1 - lo < fuel ->
  wfp (let* a := load A_coeffs A m0 in
       let* b := load B_coeffs B bidx in
       store_P n (int_mul a b) ;;
       for_le fuel lo hi (fun m =>
         let* a := load A_coeffs A m in
         let* b := load B_coeffs B (size_sub n m) in
         addto_P n (int_mul a b)))
      (fun _ => grown (hi + 1 - m0) s) s.
Proof.
  intros -> Hhi Hlo Hf.
  apply wfp_bind, wfp_load. intros a _.
  apply wfp_bind, wfp_load. intros b _.
  apply wfp_bind, wfp_store_P. intros _.
  eapply wfp_mono; [by apply product_inner_cost|].
  intros [] s' Hs' k. rewrite Hs'. cbn [accesses count_kind].
  destruct k; simpl; lia.
Qed.

Lemma Naive_Product_cost_run s :
  wfp (Naive_Product fuel A A_len B B_len)
      (fun _ => grown (A_len * B_len) s) s.
Proof.
  set (width := cauchy (fun _ => 1) (fun _ => 1) A_len B_len).
  set (inv := fun n => grown (sum_range width 0 n) s).
  assert (Hstep : forall n m0 hi s1 s2,
    0 <= n -> m0 = Z.max 0 (n - (B_len - 1)) -> hi = Z.min n (A_len - 1) ->
    m0 <= hi + 1 ->
    inv n s1 -> grown (hi + 1 - m0) s1 s2 -> inv (n + 1) s2).
  { intros n m0 hi s1 s2 Hn Hm0 Hhi Hle H1 H2 k.
    rewrite H2, H1, sum_range_snoc by lia. unfold width.
    rewrite (cauchy_ones_band _ _ _ m0 hi) by lia. lia. }
  unfold Naive_Product. cbv zeta. rewrite one_eq, zero_eq.
  rewrite (size_sub_small A_len 1), (size_sub_small B_len 1) by lia.
  rewrite !size_add_small by lia.
  apply wfp_bind. eapply wfp_mono.
  { apply (wfp_for_le inv); [lia|lia|lia| |].
    - intros k. rewrite sum_range_nil by lia. lia.
    - intros n s1 Hn H1. eapply wfp_mono.
      + apply (product_body_cost n 0 n 1 n); lia.
      + intros [] s2 H2. apply (Hstep n 0 n s1); try lia; done. }
  intros [] s1 Hs1. apply wfp_bind. eapply wfp_mono.
  { apply (wfp_for_le inv); [lia|lia|lia|exact Hs1|].
    intros n s2 Hn H2. eapply wfp_mono.
    + apply (product_body_cost n 0 n 1 (A_len - 1)); lia.
    + intros [] s3 H3. apply (Hstep n 0 (A_len - 1) s2); try lia; done. }
  intros [] s2 Hs2. eapply wfp_mono.
  { apply (wfp_for_le inv); [lia|lia|lia|exact Hs2|].
    intros n s3 Hn H3.
    rewrite (size_sub_small n (B_len - 1)) by lia.
    rewrite size_add_small by lia.
    eapply wfp_mono.
    + apply (product_body_cost n (n - (B_len - 1)) (B_len - 1) _ (A_len - 1));
        lia.
    + intros [] s4 H4.
      apply (Hstep n (n - (B_len - 1)) (A_len - 1) s3); try lia; done. }
  intros [] s3 Hs3 k. rewrite Hs3.
  replace (A_len - 1 + (B_len - 1) + 1) with (A_len + B_len - 1) by lia.
  unfold width. rewrite cauchy_ones_total by lia. lia.
Qed.
End Naive_Product_cost.

(** X16. For [1 <= A_len <= B_len], a call of [Naive_Product] performs
    exactly [A_len * B_len] multiplications: its log holds [A_len * B_len]
    reads of [A_coeffs], as many reads of [B_coeffs] and as many writes to
    [P_coeffs]. *)
Theorem Naive_Product_cost
    (A B P : list Z) (A_len B_len : Z) (fuel : nat) :
  A_len = length A -> B_len = length B -> 1 <= A_len -> A_len <= B_len ->
  A_len + B_len - 1 <= length P -> length P <= SIZE_MAX ->
  B_len < fuel ->
  exists s,
    call (Naive_Product fuel A A_len B B_len) P = Done tt s /\
    count_kind ReadA (accesses s) = A_len * B_len /\
    count_kind ReadB (accesses s) = A_len * B_len /\
    count_kind WriteP (accesses s) = A_len * B_len.
Proof.
  intros HA HB H1 HAB HP Hmax Hfuel.
  destruct (Naive_Product_call fuel A B P A_len B_len)
    as (s & E & _); try done.
  exists s. split; [done|].
  pose proof (Naive_Product_cost_run A B A_len B_len fuel H1 HAB
                ltac:(lia) Hfuel (mkState P [])) as Hc.
  unfold wfp in Hc. unfold call in E. rewrite E in Hc.
  by rewrite !Hc.
Qed.

Lemma Naive_Product_cost_witness :
  exists s,
    call (Naive_Product 4 [1; 2] 2 [3; 4; 5] 3) [0; 0; 0; 0] = Done tt s /\
    count_kind ReadA (accesses s) = 2 * 3 /\
    count_kind ReadB (accesses s) = 2 * 3 /\
    count_kind WriteP (accesses s) = 2 * 3.
Proof.
  apply (Naive_Product_cost [1; 2] [3; 4; 5] [0; 0; 0; 0] 2 3 4);
    first [reflexivity | vm_compute; congruence].
Defined.

(** ** Scaled_AddTo called in place *)

(** In a single call the cell [A_coeffs[n]] is read before [P_coeffs[n]] is
    written and no other cell is written before, so the call in place
    behaves as the call on a copy of the output buffer: same result, same
    accesses, same faults. *)
Lemma for_lt_in_place (P : list Z) (len c : Z) :
  len <= SIZE_MAX ->
  forall (fuel : nat) n s,
    0 <= n ->
    (forall k : nat, (Z.to_nat n <= k)%nat -> mem_P s !! k = P !! k) ->
    for_lt fuel n len (fun n =>
      let* a := load_shared A_coeffs n in addto_P n (int_mul c a)) s =
    for_lt fuel n len (fun n =>
      let* a := load A_coeffs P n in addto_P n (int_mul c a)) s.
Proof.
  intros Hmax. induction fuel as [|fuel IH]; intros n s Hn Hinv; [done|].
  cbn [for_lt]. case_decide as Hlt; [|done].
  unfold bind, load_shared, load. rewrite Hinv by lia.
  destruct (P !! Z.to_nat n) as [a|]; [|done].
  unfold addto_P, bind, load_P, store_P. cbn [mem_P record].
  destruct (mem_P s !! Z.to_nat n) as [p|]; [|done].
  case_decide; [|done].
  rewrite one_eq, size_add_small by lia.
  apply IH; [lia|]. intros k Hk. cbn [mem_P].
  rewrite list_lookup_insert_ne by lia. apply Hinv. lia.
Qed.

Lemma Scaled_AddTo_in_place_call (fuel : nat) (P : list Z) (len c : Z) :
  len <= SIZE_MAX ->
  call (Scaled_AddTo_in_place fuel len c) P =
  call (Scaled_AddTo fuel P len c) P.
Proof.
  intros Hmax. unfold call, Scaled_AddTo_in_place, Scaled_AddTo.
  by apply for_lt_in_place.
Qed.

(** C9, as stated, fails: the input array may be the output buffer itself.
    With [P = [1]] and [c1 = c2 = 1], the two calls in place leave [[2]]
    and then [[4]], the single call with [c1 + c2] leaves [[3]].  The same
    figures come out of [Scaled_AddTo] when each call is given the current
    content of the output buffer as its input array. *)
Lemma Scaled_AddTo_in_place_not_linear :
  (output (call (Scaled_AddTo_in_place 2 1 1) [1]) = Some [2] /\
   output (call (Scaled_AddTo_in_place 2 1 1) [2]) = Some [4] /\
   output (call (Scaled_AddTo_in_place 2 1 (int_add 1 1)) [1]) = Some [3]) /\
  (output (call (Scaled_AddTo 2 [1] 1 1) [1]) = Some [2] /\
   output (call (Scaled_AddTo 2 [2] 1 1) [2]) = Some [4] /\
   output (call (Scaled_AddTo 2 [1] 1 (int_add 1 1)) [1]) = Some [3]).
Proof. repeat split; reflexivity. Qed.

(** In place, a call is not undone by the call with the opposite scalar:
    [[1]] becomes [[2]] and then [[0]]. *)
Lemma Scaled_AddTo_in_place_not_undone :
  int_add 1 (-1) = 0 /\
  output (call (Scaled_AddTo_in_place 2 1 1) [1]) = Some [2] /\
  output (call (Scaled_AddTo_in_place 2 1 (-1)) [2]) = Some [0].
Proof. repeat split; reflexivity. Qed.

(** A call in place does not commute with a call on another array: from
    [[1]], in place and then adding [1 * [1]] leaves [[3]], the other order
    leaves [[4]]. *)
Lemma Scaled_AddTo_in_place_not_commuting :
  (output (call (Scaled_AddTo_in_place 2 1 1) [1]) = Some [2] /\
   output (call (Scaled_AddTo 2 [1] 1 1) [2]) = Some [3]) /\
  (output (call (Scaled_AddTo 2 [1] 1 1) [1]) = Some [2] /\
   output (call (Scaled_AddTo_in_place 2 1 1) [2]) = Some [4]).
Proof. repeat split; reflexivity. Qed.
